(** * Pixel transforms of the glitch/blend/chroma-key pipeline

    Shallow embedding of [src/utils/glitchAlgorithms.ts] (threshold, pixel
    sort, block shift, channel shift, scanlines, [processImage]), the blend
    algorithms ([renderBlend]) and [src/utils/chromaKeyAlgorithms.ts]
    ([hexToRgb], [applyChromaKey]).

    Conventions.
    - A [Uint8ClampedArray] is a [list Z] of bytes; a read [data[i]] is
      [rd data i]; a write [data[i] = v] is [wr data i v], with the value
      first converted by [to_uint8_clamp] when it is not an integer byte.
      Writes out of range are ignored, as typed arrays do.
    - JavaScript numbers are rationals [Q].  Where a non-integer result is
      floored (loop counts, displacement shifts) or compared against the
      integer distances of the chroma key, the IEEE-754 binary64 rounding
      of each operation is written out ([fl_add], [fl_sub], [fl_mul],
      [fl_div], [js_sqrt]); elsewhere the arithmetic is exact.
    - Every [Math.random()] call is an explicit input: the draws form a
      stream [nat -> Q] consumed in program order. *)

From Stdlib Require Import ZArith QArith Qround Qabs Qminmax Qpower List Lia Bool.
From Stdlib Require Import Permutation Sorted String Ascii.
Import ListNotations.
Open Scope Z_scope.

(** ** Typed-array buffers *)

Fixpoint upd (l : list Z) (n : nat) (v : Z) : list Z :=
  match l, n with
  | [], _ => []
  | _ :: t, O => v :: t
  | x :: t, S n' => x :: upd t n' v
  end.

(** [data[i]]; an out-of-range read is [undefined], which a store into a
    [Uint8ClampedArray] turns into [0]. *)
Definition rd (d : list Z) (i : Z) : Z := if i <? 0 then 0 else nth (Z.to_nat i) d 0.

(** [data[i] = v] for an integer byte [v]; out-of-range writes are dropped. *)
Definition wr (d : list Z) (i : Z) (v : Z) : list Z :=
  if i <? 0 then d else upd d (Z.to_nat i) v.

Definition Qltb (x y : Q) : bool := negb (Qle_bool y x).

(** ECMAScript ToUint8Clamp: clamp to [0,255], round half to even. *)
Definition to_uint8_clamp (q : Q) : Z :=
  if Qle_bool q 0 then 0
  else if Qle_bool 255 q then 255
  else
    let f := Qfloor q in
    let frac := (q - inject_Z f)%Q in
    if Qltb (1 # 2) frac then f + 1
    else if Qltb frac (1 # 2) then f
    else if Z.even f then f else f + 1.

(** [data[i] = q] for a number [q] stored into a [Uint8ClampedArray]. *)
Definition wrq (d : list Z) (i : Z) (q : Q) : list Z := wr d i (to_uint8_clamp q).

(** [for (let i = 0; i < len; i += 4) body(i)], with [n] iterations left. *)
Fixpoint loop4 (n : nat) (i : Z) (body : Z -> list Z -> list Z) (d : list Z)
  : list Z :=
  match n with
  | O => d
  | S n' => loop4 n' (i + 4) body (body i d)
  end.

Definition for_px (len : Z) (body : Z -> list Z -> list Z) (d : list Z) : list Z :=
  loop4 (Z.to_nat ((len + 3) / 4)) 0 body d.

(** An RGBA pixel as four channel values. *)
Record px := Px { pR : Z; pG : Z; pB : Z; pA : Z }.

Definition read4 (d : list Z) (i : Z) : px :=
  Px (rd d i) (rd d (i + 1)) (rd d (i + 2)) (rd d (i + 3)).

Definition write4 (d : list Z) (i : Z) (p : px) : list Z :=
  wr (wr (wr (wr d i (pR p)) (i + 1) (pG p)) (i + 2) (pB p)) (i + 3) (pA p).

(** ** Threshold (silhouette) pass: [applyThreshold] *)

Definition threshold_body (threshold : Q) (i : Z) (data : list Z) : list Z :=
  let r := rd data i in
  let g := rd data (i + 1) in
  let b := rd data (i + 2) in
  let brightness := (inject_Z (r + g + b) / 3)%Q in
  let val := if Qle_bool threshold brightness then 255 else 0 in
  wr (wr (wr data i val) (i + 1) val) (i + 2) val.

Definition applyThreshold (data : list Z) (threshold : Q) : list Z :=
  if Qle_bool threshold 0 then data
  else for_px (Zlength data) (threshold_body threshold) data.

(** ** Binary64 rounding

    [fl q] is the IEEE-754 round-to-nearest-even image of a rational [q]:
    53 significant bits in the normal range, a fixed exponent of [-1074] in
    the subnormal range (so tiny results round to [0]).  Overflow to
    infinity is not represented; the values below stay under [2^1024] for
    the parameter ranges they are used with.  [fl_add], [fl_sub], [fl_mul]
    and [fl_div] are JavaScript's [+], [-], [*] and [/] on doubles. *)

Definition round_even (q : Q) : Z :=
  let f := Qfloor q in
  let frac := (q - inject_Z f)%Q in
  if Qltb (1 # 2) frac then f + 1
  else if Qltb frac (1 # 2) then f
  else if Z.even f then f else f + 1.

Definition pow2q (e : Z) : Q :=
  if 0 <=? e then inject_Z (2 ^ e) else 1 # (Z.to_pos (2 ^ (- e))).

(** [floor (log2 a)] for [a > 0]. *)
Definition qlog2 (a : Q) : Z :=
  let e0 := Z.log2 (Qnum a) - Z.log2 (Zpos (Qden a)) in
  if Qle_bool (pow2q e0) a then e0 else e0 - 1.

Definition fl (q : Q) : Q :=
  if Qeq_bool q 0 then 0
  else
    let a := Qabs q in
    let e := Z.max (qlog2 a - 52) (-1074) in
    let m := round_even (a / pow2q e) in
    let r := (inject_Z m * pow2q e)%Q in
    if Qle_bool 0 q then r else (- r)%Q.

Definition fl_add (x y : Q) : Q := fl (x + y).
Definition fl_sub (x y : Q) : Q := fl (x - y).
Definition fl_mul (x y : Q) : Q := fl (x * y).
Definition fl_div (x y : Q) : Q := fl (x / y).

(** [Math.sqrt]: correctly rounded binary64 square root of [a >= 0]. *)
Definition js_sqrt (a : Q) : Q :=
  if Qle_bool a 0 then 0
  else
    let e := Z.div (qlog2 a) 2 - 52 in
    let x := (a / pow2q (2 * e))%Q in
    let m := Z.sqrt (Qfloor x) in
    let half := (inject_Z m + (1 # 2))%Q in
    let m' := if Qltb (half * half) x then m + 1
              else if Qltb x (half * half) then m
              else if Z.even m then m else m + 1 in
    (inject_Z m' * pow2q e)%Q.

(** ** 32-bit integer operators *)

Definition to_int32 (z : Z) : Z :=
  let m := z mod 2 ^ 32 in if 2 ^ 31 <=? m then m - 2 ^ 32 else m.

(** [a << s] *)
Definition js_shl (a s : Z) : Z := to_int32 (Z.shiftl (to_int32 a) (s mod 32)).

(** [a >>> s] on a non-negative integer below [2^32]. *)
Definition js_ushr (a s : Z) : Z := Z.shiftr (a mod 2 ^ 32) (s mod 32).

(** ** Effects: random draws, buffer state, RangeError *)

(** One executed row copy of the block-shift pass:
    [(destX, destY, destStart, len)]. *)
Definition copy_entry := (Z * Z * Z * Z)%type.

Record St := mkSt { pos : nat; buf : list Z; log : list copy_entry }.

(** A computation reads the next draw of the stream, updates the buffer, or
    fails with a RangeError ([None]). *)
Definition M (A : Type) := St -> option (A * St).

Definition ret {A} (a : A) : M A := fun s => Some (a, s).
Definition bind {A B} (m : M A) (k : A -> M B) : M B :=
  fun s => match m s with Some (a, s') => k a s' | None => None end.

Declare Scope m_scope.
Notation "x <- m ;; k" := (bind m (fun x => k))
  (at level 61, m at next level, right associativity) : m_scope.
Notation "m ;; k" := (bind m (fun _ => k))
  (at level 61, right associativity) : m_scope.
Open Scope m_scope.

Definition get_buf : M (list Z) := fun s => Some (buf s, s).
Definition modify (f : list Z -> list Z) : M unit :=
  fun s => Some (tt, mkSt (pos s) (f (buf s)) (log s)).
Definition record_copy (e : copy_entry) : M unit :=
  fun s => Some (tt, mkSt (pos s) (buf s) (log s ++ [e])).

(** [for (let i = start; <n iterations>; i += step) body(i)] *)
Fixpoint for_range (n : nat) (i step : Z) (body : Z -> M unit) : M unit :=
  match n with
  | O => ret tt
  | S n' => body i ;; for_range n' (i + step) step body
  end.

(** [target.set(src, off)]: RangeError unless [0 <= off] and
    [off + src.length <= target.length]. *)
Definition set_at (d src : list Z) (off : Z) : option (list Z) :=
  if (off <? 0) || (Zlength d <? off + Zlength src) then None
  else Some (firstn (Z.to_nat off) d ++ src ++ skipn (Z.to_nat (off + Zlength src)) d).

Definition tset (src : list Z) (off : Z) : M unit :=
  fun s => match set_at (buf s) src off with
           | Some d' => Some (tt, mkSt (pos s) d' (log s))
           | None => None
           end.

(** [data.subarray(a, b)] for [0 <= a <= b <= length]. *)
Definition subarray (d : list Z) (a b : Z) : list Z :=
  firstn (Z.to_nat (b - a)) (skipn (Z.to_nat a) d).

(** Stable insertion sort: the result of ES2019's stable
    [Array.prototype.sort] with the consistent comparator
    [(a, b) => key a - key b] (a stable sort's result is unique). *)
Section Sort.
Context {A : Type} (key : A -> Z).
Fixpoint insert_by (x : A) (l : list A) : list A :=
  match l with
  | [] => [x]
  | y :: t => if key x <=? key y then x :: y :: t else y :: insert_by x t
  end.
Fixpoint sort_by (l : list A) : list A :=
  match l with
  | [] => []
  | x :: t => insert_by x (sort_by t)
  end.
End Sort.

(** ** Glitch passes ([glitchAlgorithms.ts]) *)

Record GlitchParams := mkGlitch {
  amount : Q; seed : Q; iterations : Q; quality : Q;
  rgbShift : Z; blockShift : Q; scanlines : Q; pixelSort : Q }.

(** The glitch seed replaced, every other field kept. *)
Definition with_seed (p : GlitchParams) (s : Q) : GlitchParams :=
  mkGlitch (amount p) s (iterations p) (quality p)
           (rgbShift p) (blockShift p) (scanlines p) (pixelSort p).

Section Random.
(** The values returned by successive [Math.random()] calls. *)
Variable rng : nat -> Q.

Definition random : M Q :=
  fun s => Some (rng (pos s), mkSt (S (pos s)) (buf s) (log s)).

(** [randomInt(min, max)] *)
Definition randomInt (min max : Z) : M Z :=
  r <- random ;; ret (Qfloor (r * inject_Z (max - min + 1)) + min).

(** Body of the [applyPixelSort] loop for the chosen row [y]. *)
Definition sort_row (width y : Z) : M unit :=
  data <- get_buf ;;
  let rowStart := (y * width) * 4 in
  let rowIndices := map Z.of_nat (seq 0 (Z.to_nat width)) in
  let bright k :=
    let idx := rowStart + k * 4 in rd data idx + rd data (idx + 1) + rd data (idx + 2) in
  let sorted := sort_by bright rowIndices in
  let tempRow :=
    flat_map (fun k => let o := rowStart + k * 4 in
                       [rd data o; rd data (o + 1); rd data (o + 2); rd data (o + 3)])
             sorted in
  tset tempRow rowStart.

(** Number of rows drawn: [Math.floor(height * (threshold / 100))]. *)
Definition rowsToSort (height : Z) (threshold : Q) : Z :=
  Qfloor (fl_mul (inject_Z height) (fl_div threshold 100)).

Definition applyPixelSort (width height : Z) (threshold : Q) : M unit :=
  if Qeq_bool threshold 0 then ret tt
  else
    for_range (Z.to_nat (rowsToSort height threshold)) 0 1 (fun _ =>
      y <- randomInt 0 (height - 1) ;;
      sort_row width y).

(** One iteration of the row loop of [applyBlockShift]. *)
Definition copy_row (width srcX srcY destX destY blockW y : Z) : M unit :=
  data <- get_buf ;;
  let srcStart := ((srcY + y) * width + srcX) * 4 in
  let destStart := ((destY + y) * width + destX) * 4 in
  let len := blockW * 4 in
  if (srcStart + len <? Zlength data) && (destStart + len <? Zlength data)
     && (0 <=? srcStart) && (0 <=? destStart)
  then
    let rowData := subarray data srcStart (srcStart + len) in
    record_copy (destX, destY, destStart, len) ;;
    tset rowData destStart
  else ret tt.

Definition numBlocks (intensity : Q) : Z :=
  Qfloor (fl_mul (fl_div intensity 100) 30).

Definition one_block (width height : Z) : M unit :=
  let maxBlockSize := width / 4 in
  blockW <- randomInt 10 maxBlockSize ;;
  blockH <- randomInt 2 50 ;;
  srcX <- randomInt 0 (width - blockW) ;;
  srcY <- randomInt 0 (height - blockH) ;;
  shiftX <- randomInt (-50) 50 ;;
  shiftY <- randomInt (-10) 10 ;;
  let destX := Z.min (width - blockW) (Z.max 0 (srcX + shiftX)) in
  let destY := Z.min (height - blockH) (Z.max 0 (srcY + shiftY)) in
  for_range (Z.to_nat blockH) 0 1 (copy_row width srcX srcY destX destY blockW).

(** [seed] is a parameter of the source function and is not read. *)
Definition applyBlockShift (width height : Z) (intensity seed : Q) : M unit :=
  if Qeq_bool intensity 0 then ret tt
  else for_range (Z.to_nat (numBlocks intensity)) 0 1 (fun _ => one_block width height).

(** [applyRGBShift]: body of the [i += 4] loop, reading the copy [buffer]. *)
Definition rgb_shift_body (buffer : list Z) (width offset len i : Z) (data : list Z)
  : list Z :=
  let pixelIndex := js_ushr i 2 in
  let x := Z.rem pixelIndex width in
  let y := (pixelIndex - x) / width in
  let newX := Z.rem (x + offset) width in
  let newIndex := js_shl (y * width + newX) 2 in
  if newIndex <? len then wr data i (rd buffer newIndex) else data.

Definition rgb_shift (data : list Z) (width height offset : Z) : list Z :=
  if offset =? 0 then data
  else
    let buffer := data in
    let len := Zlength data in
    for_px len (rgb_shift_body buffer width offset len) data.

Definition applyRGBShift (width height offset : Z) : M unit :=
  modify (fun data => rgb_shift data width height offset).

(** [y % lineSkip === 0]; [y % 0] is [NaN]. *)
Definition rem_is_zero (y m : Z) : bool :=
  if m =? 0 then false else Z.rem y m =? 0.

Definition scan_pixel (factor noiseChance : Q) (i : Z) : M unit :=
  modify (fun d0 =>
    let d1 := wrq d0 i (inject_Z (rd d0 i) * factor) in
    let d2 := wrq d1 (i + 1) (inject_Z (rd d1 (i + 1)) * factor) in
    wrq d2 (i + 2) (inject_Z (rd d2 (i + 2)) * factor)) ;;
  c <- random ;;
  if Qltb c noiseChance then
    u <- random ;;
    let noise := ((u - (1 # 2)) * 50)%Q in
    modify (fun d0 =>
      let d1 := wrq d0 i (inject_Z (rd d0 i) + noise) in
      let d2 := wrq d1 (i + 1) (inject_Z (rd d1 (i + 1)) + noise) in
      wrq d2 (i + 2) (inject_Z (rd d2 (i + 2)) + noise))
  else ret tt.

Definition applyScanlines (width height : Z) (intensity : Q) : M unit :=
  if Qeq_bool intensity 0 then ret tt
  else
    let lineSkip := 2 + Qfloor ((10 - intensity) / 2) in
    let factor := ((1 # 2) + (10 - intensity) / 20)%Q in
    let noiseChance := (intensity * (1 # 100))%Q in
    for_range (Z.to_nat height) 0 1 (fun y =>
      if rem_is_zero y lineSkip then
        let rowStart := y * width * 4 in
        let rowEnd := rowStart + width * 4 in
        for_range (Z.to_nat ((rowEnd - rowStart + 3) / 4)) rowStart 4
                  (scan_pixel factor noiseChance)
      else ret tt).

Definition processImage_M (width height : Z) (params : GlitchParams) : M unit :=
  applyPixelSort width height (pixelSort params) ;;
  applyBlockShift width height (blockShift params) (seed params) ;;
  applyRGBShift width height (rgbShift params) ;;
  applyScanlines width height (scanlines params).

(** [processImage]: [getImageData], the four passes, [putImageData]. *)
Definition processImage (width height : Z) (params : GlitchParams) (data : list Z)
  : option (list Z) :=
  match processImage_M width height params (mkSt 0 data []) with
  | Some (_, s) => Some (buf s)
  | None => None
  end.

(** ** Blend algorithms ([renderBlend]) *)

Inductive BlendMode := Displacement | Difference | HardMix | Interlace.

Record BlendParams := mkBlend { mode : BlendMode; mix : Q; bthreshold : Q; scale : Q }.

(** [Math.floor(((c / 127.5) - 1) * displacementScale)], each operation
    rounded to binary64. *)
Definition disp_shift (c : Z) (displacementScale : Q) : Z :=
  Qfloor (fl_mul (fl_sub (fl_div (inject_Z c) (255 # 2)) 1) displacementScale).

(** Displacement: one iteration of the [i += 4] loop; [buffer] is the
    snapshot of the target taken before the loop. *)
Definition displace_px (buffer blendData : list Z) (width height : Z)
    (displacementScale mix : Q) (i : Z) : M unit :=
  let br := rd blendData i in
  let shiftX := disp_shift br displacementScale in
  let shiftY := disp_shift (rd blendData (i + 1)) displacementScale in
  let pixelIndex := js_ushr i 2 in
  let x := Z.rem pixelIndex width in
  let y := (pixelIndex - x) / width in
  let srcX0 := x + shiftX in
  let srcY0 := y + shiftY in
  let srcX := if srcX0 <? 0 then 0 else if width <=? srcX0 then width - 1 else srcX0 in
  let srcY := if srcY0 <? 0 then 0 else if height <=? srcY0 then height - 1 else srcY0 in
  let srcIdx := js_shl (srcY * width + srcX) 2 in
  r <- random ;;
  if Qltb (1 - mix) r then
    modify (fun d =>
      wr (wr (wr d i (rd buffer srcIdx)) (i + 1) (rd buffer (srcIdx + 1)))
         (i + 2) (rd buffer (srcIdx + 2)))
  else ret tt.

Definition difference_px (blendData : list Z) (mix : Q) (i : Z) : M unit :=
  r <- random ;;
  if Qltb r mix then
    modify (fun d =>
      let d1 := wr d i (Z.abs (rd d i - rd blendData i)) in
      let d2 := wr d1 (i + 1) (Z.abs (rd d1 (i + 1) - rd blendData (i + 1))) in
      wr d2 (i + 2) (Z.abs (rd d2 (i + 2) - rd blendData (i + 2))))
  else ret tt.

(** [v > thresh ? Math.min(255, v + mix255) : Math.max(0, v - mix255)] *)
Definition hard_mix_channel (thresh mix255 : Q) (v : Z) : Q :=
  if Qltb thresh (inject_Z v) then Qmin 255 (inject_Z v + mix255)
  else Qmax 0 (inject_Z v - mix255).

Definition hard_mix_body (blendData : list Z) (thresh mix255 : Q) (i : Z)
    (targetData : list Z) : list Z :=
  let r := Z.shiftr (rd targetData i + rd blendData i) 1 in
  let g := Z.shiftr (rd targetData (i + 1) + rd blendData (i + 1)) 1 in
  let b := Z.shiftr (rd targetData (i + 2) + rd blendData (i + 2)) 1 in
  let d1 := wrq targetData i (hard_mix_channel thresh mix255 r) in
  let d2 := wrq d1 (i + 1) (hard_mix_channel thresh mix255 g) in
  wrq d2 (i + 2) (hard_mix_channel thresh mix255 b).

Definition interlace_row (blendData : list Z) (width rowHeight : Z) (mix : Q) (y : Z)
  : M unit :=
  let useImg2 := Z.rem (y / rowHeight) 2 =? 0 in
  if useImg2 && Qltb (1 # 10) mix then
    let rowStart := y * width * 4 in
    let rowEnd := rowStart + width * 4 in
    for_range (Z.to_nat (rowEnd - rowStart)) rowStart 1 (fun j =>
      modify (fun d => wr d j (rd blendData j)))
  else ret tt.

(** [renderBlend] on the target buffer (the state) and the resampled second
    source [img2] ([None] when there is none). *)
Definition renderBlend_M (img2 : option (list Z)) (width height : Z)
    (params : BlendParams) : M unit :=
  match img2 with
  | None => ret tt
  | Some blendData =>
    targetData <- get_buf ;;
    let len := Zlength targetData in
    let mix := (mix params / 100)%Q in
    let displacementScale := fl_mul (scale params) 2 in
    let thresh := bthreshold params in
    let mix255 := (mix * 255)%Q in
    let rowHeight := Z.max 1 (Qfloor (scale params / 10)) in
    match mode params with
    | Displacement =>
      let buffer := targetData in
      for_range (Z.to_nat ((len + 3) / 4)) 0 4
        (displace_px buffer blendData width height displacementScale mix)
    | Difference =>
      if Qltb 0 mix then
        for_range (Z.to_nat ((len + 3) / 4)) 0 4 (difference_px blendData mix)
      else ret tt
    | HardMix =>
      modify (fun d => for_px len (hard_mix_body blendData thresh mix255) d)
    | Interlace =>
      for_range (Z.to_nat height) 0 1 (interlace_row blendData width rowHeight mix)
    end
  end.

Definition renderBlend (img2 : option (list Z)) (width height : Z)
    (params : BlendParams) (data : list Z) : option (list Z) :=
  match renderBlend_M img2 width height params (mkSt 0 data []) with
  | Some (_, s) => Some (buf s)
  | None => None
  end.

End Random.

(** ** Chroma key ([chromaKeyAlgorithms.ts]) *)

(** A character of the class [[a-f\d]] under the [i] flag. *)
Definition is_hex_char (c : ascii) : bool :=
  let n := nat_of_ascii c in
  (Nat.leb 48 n && Nat.leb n 57) || (Nat.leb 97 n && Nat.leb n 102)
  || (Nat.leb 65 n && Nat.leb n 70).

Definition hex_char_val (c : ascii) : Z :=
  let n := Z.of_nat (nat_of_ascii c) in
  if n <=? 57 then n - 48 else if n <=? 70 then n - 55 else n - 87.

(** [parseInt(xy, 16)] on two hex characters. *)
Definition parseHex2 (c1 c2 : ascii) : Z := 16 * hex_char_val c1 + hex_char_val c2.

(** [([a-f\d]{2})([a-f\d]{2})([a-f\d]{2})$] anchored at the start of [s]. *)
Definition match_groups (s : string) : option (Z * Z * Z) :=
  match s with
  | String a (String b (String c (String d (String e (String f EmptyString))))) =>
    if forallb is_hex_char [a; b; c; d; e; f]
    then Some (parseHex2 a b, parseHex2 c d, parseHex2 e f)
    else None
  | _ => None
  end.

(** [/^#?([a-f\d]{2})([a-f\d]{2})([a-f\d]{2})$/i.exec(hex)]: the optional
    [#] is tried first, then skipped on backtracking. *)
Definition hex_exec (hex : string) : option (Z * Z * Z) :=
  match hex with
  | String "#" rest =>
    match match_groups rest with
    | Some m => Some m
    | None => match_groups hex
    end
  | _ => match_groups hex
  end.

Definition hexToRgb (hex : string) : Z * Z * Z :=
  match hex_exec hex with
  | Some rgb => rgb
  | None => (0, 255, 0)
  end.

Record ChromaParams := mkChroma {
  enabled : bool; keyColor : string; similarity : Q; smoothness : Q; spill : Q }.

Definition with_keyColor (p : ChromaParams) (k : string) : ChromaParams :=
  mkChroma (enabled p) k (similarity p) (smoothness p) (spill p).

(** Body of the [for (let i = 0; i < l; i++)] loop. *)
Definition chroma_body (target : Z * Z * Z) (distThresholdSq smoothRange spill : Q)
    (i : Z) (data : list Z) : list Z :=
  let '(tr, tg, tb) := target in
  let r := rd data (i * 4 + 0) in
  let g := rd data (i * 4 + 1) in
  let b := rd data (i * 4 + 2) in
  let dr := r - tr in
  let dg := g - tg in
  let db := b - tb in
  let distSq := inject_Z (dr * dr + dg * dg + db * db) in
  if Qltb distSq distThresholdSq then wr data (i * 4 + 3) 0
  else if Qltb 0 smoothRange
          && Qltb distSq (fl_add distThresholdSq (fl_mul smoothRange smoothRange)) then
    let dist := js_sqrt distSq in
    let base := js_sqrt distThresholdSq in
    let alpha := fl_div (fl_sub dist base) smoothRange in
    let data1 :=
      if Qltb 0 spill then
        let gray := fl_add (fl_add (fl_mul (inject_Z r) (fl (299 # 1000)))
                                   (fl_mul (inject_Z g) (fl (587 # 1000))))
                           (fl_mul (inject_Z b) (fl (114 # 1000))) in
        let d1 := wrq data (i * 4)
                    (fl_add (fl_mul (inject_Z r) (fl_sub 1 spill)) (fl_mul gray spill)) in
        let d2 := wrq d1 (i * 4 + 1)
                    (fl_add (fl_mul (inject_Z g) (fl_sub 1 spill)) (fl_mul gray spill)) in
        wrq d2 (i * 4 + 2)
            (fl_add (fl_mul (inject_Z b) (fl_sub 1 spill)) (fl_mul gray spill))
      else data in
    wrq data1 (i * 4 + 3) (fl_mul alpha 255)
  else data.

(** [for (let i = start; <n iterations>; i++) body(i)] *)
Fixpoint loop1 (n : nat) (i : Z) (body : Z -> list Z -> list Z) (d : list Z)
  : list Z :=
  match n with
  | O => d
  | S n' => loop1 n' (i + 1) body (body i d)
  end.

Definition applyChromaKey (width height : Z) (params : ChromaParams) (data : list Z)
  : list Z :=
  if negb (enabled params) then data
  else
    let l := Zlength data in
    let target := hexToRgb (keyColor params) in
    let distThreshold := fl_mul (similarity params) 442 in
    let distThresholdSq := fl_mul distThreshold distThreshold in
    let smoothRange := fl_mul (smoothness params) 100 in
    (* i < l where l = length / 4 *)
    loop1 (Z.to_nat ((l + 3) / 4)) 0
          (chroma_body target distThresholdSq smoothRange (spill params)) data.

(** ** Local storage ([storage.ts]) *)

(** The [User] and [Post] records of [types.ts]; [Post.username] is
    [post_username] here, record fields sharing one name space. *)
Record User := mkUser { username : string; joinedAt : string; avatar : option string }.

Inductive PostType := PImage | PVideo.

Record Post := mkPost {
  id : string; post_username : string; image : string; ptype : PostType;
  caption : string; timestamp : Z; likes : Z }.

(** A stored item as [JSON.parse] reads it back: the value whose
    [JSON.stringify] was stored (these records of strings and integers
    round-trip), or a text that does not parse. *)
Inductive json_item (A : Type) := Parsed (a : A) | Unparsable.
Arguments Parsed {A} a.
Arguments Unparsable {A}.

(** The three keys of [KEYS]: ['screen_db_users'], ['screen_db_posts'],
    ['screen_session_user'] ([None]: no item under the key). *)
Record Store := mkStore {
  db_users : option (json_item (list User));
  db_posts : option (json_item (list Post));
  session_user : option string }.

(** The exceptions the service throws ([QuotaExceeded]: the DOMException of
    a failed [localStorage.setItem]). *)
Inductive StorageError :=
  | UserNotFound | UsernameTaken
  | STORAGE_FULL_DELETE_OLD_POSTS | STORAGE_FULL_DELETE_POSTS
  | QuotaExceeded.

(** A storage operation returns its value or throws; writes done before a
    throw persist. *)
Definition SM (A : Type) := Store -> (A + StorageError) * Store.

Definition sret {A} (a : A) : SM A := fun s => (inl a, s).
Definition sthrow {A} (e : StorageError) : SM A := fun s => (inr e, s).
Definition sbind {A B} (m : SM A) (k : A -> SM B) : SM B :=
  fun s => match m s with
           | (inl a, s') => k a s'
           | (inr e, s') => (inr e, s')
           end.
(** [try m catch (e) h(e)] *)
Definition scatch {A} (m : SM A) (h : StorageError -> SM A) : SM A :=
  fun s => match m s with
           | (inr e, s') => h e s'
           | r => r
           end.

Declare Scope sm_scope.
Notation "x <-- m ;;; k" := (sbind m (fun x => k))
  (at level 61, m at next level, right associativity) : sm_scope.
Notation "m ;;; k" := (sbind m (fun _ => k))
  (at level 61, right associativity) : sm_scope.
Open Scope sm_scope.

Definition avatar_prefix : string := "https://api.dicebear.com/7.x/shapes/svg?seed=".

Section Storage.
(** [String.prototype.toLowerCase], and whether the browser's quota admits
    a storage state: [localStorage.setItem] throws when it does not. *)
Variable toLowerCase : string -> string.
Variable fits : Store -> bool.

Definition setItem (s' : Store) : SM unit :=
  fun s => if fits s' then (inl tt, s') else (inr QuotaExceeded, s).

(** [getStorage<User[]>(KEYS.USERS, [])] *)
Definition getStorage_users : SM (list User) :=
  fun s => (inl (match db_users s with Some (Parsed l) => l | _ => [] end), s).

Definition getStorage_posts : SM (list Post) :=
  fun s => (inl (match db_posts s with Some (Parsed l) => l | _ => [] end), s).

(** [setStorage(key, value)]: any failure of [setItem] becomes
    [Error("STORAGE_FULL_DELETE_OLD_POSTS")]. *)
Definition setStorage_users (users : list User) : SM unit :=
  fun s => scatch (setItem (mkStore (Some (Parsed users)) (db_posts s) (session_user s)))
                  (fun _ => sthrow STORAGE_FULL_DELETE_OLD_POSTS) s.

Definition setStorage_posts (posts : list Post) : SM unit :=
  fun s => scatch (setItem (mkStore (db_users s) (Some (Parsed posts)) (session_user s)))
                  (fun _ => sthrow STORAGE_FULL_DELETE_OLD_POSTS) s.

(** [localStorage.setItem(KEYS.CURRENT_USER, name)] *)
Definition setItem_session (name : string) : SM unit :=
  fun s => setItem (mkStore (db_users s) (db_posts s) (Some name)) s.

Definition same_name (name : string) (u : User) : bool :=
  String.eqb (toLowerCase (username u)) (toLowerCase name).

Definition loginUser (name : string) : SM User :=
  users <-- getStorage_users ;;;
  match find (same_name name) users with
  | None => sthrow UserNotFound
  | Some user => setItem_session (username user) ;;; sret user
  end.

(** [joinedAt] is the value of [new Date().toISOString()]. *)
Definition registerUser (name joinedAt_now : string) : SM User :=
  users <-- getStorage_users ;;;
  match find (same_name name) users with
  | Some _ => sthrow UsernameTaken
  | None =>
    let newUser := mkUser name joinedAt_now (Some (avatar_prefix ++ name)%string) in
    setStorage_users (users ++ [newUser]) ;;;
    setItem_session name ;;;
    sret newUser
  end.

Definition getCurrentUser (s : Store) : option User :=
  match session_user s with
  | None | Some EmptyString => None
  | Some name =>
    let users := match db_users s with Some (Parsed l) => l | _ => [] end in
    find (same_name name) users
  end.

(** [localStorage.removeItem] does not throw. *)
Definition logoutUser (s : Store) : Store := mkStore (db_users s) (db_posts s) None.

(** [newId] is [Date.now().toString(36) + Math.random().toString(36).substr(2)]
    and [now] the second [Date.now()]. *)
Definition createPost (user : User) (mediaData caption : string) (type : PostType)
    (newId : string) (now : Z) : SM Post :=
  posts <-- getStorage_posts ;;;
  let newPost := mkPost newId (username user) mediaData type caption now 0 in
  let updatedPosts0 := newPost :: posts in
  let updatedPosts := if Nat.ltb 15 (List.length updatedPosts0)
                      then firstn 15 updatedPosts0 else updatedPosts0 in
  scatch (setStorage_posts updatedPosts)
    (fun err => match err with
                | STORAGE_FULL_DELETE_OLD_POSTS =>
                  if Nat.ltb 5 (List.length updatedPosts)
                  then setStorage_posts (firstn 5 updatedPosts)
                  else sthrow STORAGE_FULL_DELETE_POSTS
                | _ => sthrow err
                end) ;;;
  sret newPost.

Definition getPosts (s : Store) : list Post :=
  match db_posts s with Some (Parsed l) => l | _ => [] end.

Definition getUserPosts (name : string) (s : Store) : list Post :=
  filter (fun p => String.eqb (post_username p) name) (getPosts s).
End Storage.

(** ** Pixel maps, spec-side readings and invariants used by the proofs *)

Definition threshold_px (t : Q) (p : px) : px :=
  let v := if Qle_bool t (inject_Z (pR p + pG p + pB p) / 3) then 255 else 0 in
  Px v v v (pA p).

Definition rgb_src (width offset i : Z) : Z :=
  let pixelIndex := js_ushr i 2 in
  let x := Z.rem pixelIndex width in
  let y := (pixelIndex - x) / width in
  let newX := Z.rem (x + offset) width in
  js_shl (y * width + newX) 2.

Definition rgb_G (buffer : list Z) (width offset len i : Z) (p : px) : px :=
  if rgb_src width offset i <? len then Px (rd buffer (rgb_src width offset i)) (pG p) (pB p) (pA p)
  else p.

Definition hard_mix_G (blendData : list Z) (thresh mix255 : Q) (i : Z) (p : px) : px :=
  Px (to_uint8_clamp (hard_mix_channel thresh mix255 (Z.shiftr (pR p + rd blendData i) 1)))
     (to_uint8_clamp (hard_mix_channel thresh mix255 (Z.shiftr (pG p + rd blendData (i + 1)) 1)))
     (to_uint8_clamp (hard_mix_channel thresh mix255 (Z.shiftr (pB p + rd blendData (i + 2)) 1)))
     (pA p).

(** The spec's hard-mix output channel, with [avg] the exact average. *)
Definition hard_mix_claimed (thresh mixp : Q) (a b : Z) : Q :=
  let avg := (inject_Z (a + b) / 2)%Q in
  if Qltb thresh avg then Qmin 255 (avg + mixp * (255 # 100))
  else Qmax 0 (avg - mixp * (255 # 100)).

Definition chroma_G (target : Z * Z * Z) (distThresholdSq smoothRange spill : Q) (p : px)
  : px :=
  let '(tr, tg, tb) := target in
  let r := pR p in let g := pG p in let b := pB p in
  let distSq := inject_Z ((r - tr) * (r - tr) + (g - tg) * (g - tg) + (b - tb) * (b - tb)) in
  if Qltb distSq distThresholdSq then Px r g b 0
  else if Qltb 0 smoothRange
          && Qltb distSq (fl_add distThresholdSq (fl_mul smoothRange smoothRange)) then
    let alpha := fl_div (fl_sub (js_sqrt distSq) (js_sqrt distThresholdSq)) smoothRange in
    let gray := fl_add (fl_add (fl_mul (inject_Z r) (fl (299 # 1000)))
                               (fl_mul (inject_Z g) (fl (587 # 1000))))
                       (fl_mul (inject_Z b) (fl (114 # 1000))) in
    let mixc (c : Z) := fl_add (fl_mul (inject_Z c) (fl_sub 1 spill)) (fl_mul gray spill) in
    if Qltb 0 spill then
      Px (to_uint8_clamp (mixc r)) (to_uint8_clamp (mixc g)) (to_uint8_clamp (mixc b))
         (to_uint8_clamp (fl_mul alpha 255))
    else Px r g b (to_uint8_clamp (fl_mul alpha 255))
  else p.

(** Spec-side reading of a hex digit: its position among [0-9a-f] or
    [0-9A-F]. *)
Fixpoint index_of (c : ascii) (s : string) (n : Z) : option Z :=
  match s with
  | EmptyString => None
  | String c' s' => if Ascii.eqb c c' then Some n else index_of c s' (n + 1)
  end.

Definition hex_digit_value (c : ascii) : option Z :=
  match index_of c "0123456789abcdef" 0 with
  | Some v => Some v
  | None => index_of c "0123456789ABCDEF" 0
  end.

Definition six (a b c d e f : ascii) : string :=
  String a (String b (String c (String d (String e (String f EmptyString))))).

(** A well-formed color: six hex digits, optionally after a [#]. *)
Definition well_formed_color (s : string) : Prop :=
  exists a b c d e f,
    (s = six a b c d e f \/ s = String "#" (six a b c d e f)) /\
    Forall (fun x => hex_digit_value x <> None) [a; b; c; d; e; f].




(** The spec's displacement shift [floor(((c/127.5)-1) x scale x 2)] in
    exact arithmetic. *)
Definition claimed_shift (c : Z) (scale : Q) : Z :=
  Qfloor ((inject_Z c / (255 # 2) - 1) * (scale * 2)).


Definition in_bounds (L : Z) (e : copy_entry) : Prop :=
  let '(_, _, destStart, len) := e in 0 <= destStart /\ destStart + len <= L.

Definition safe_st (L : Z) (s : St) : Prop :=
  Zlength (buf s) = L /\ Forall (in_bounds L) (log s).

Definition keeps_safe (L : Z) (m : M unit) : Prop :=
  forall s, safe_st L s -> exists s', m s = Some (tt, s') /\ safe_st L s'.

(** A draw sequence for a 4 x 60 image: the first block is 10 pixels wide. *)
Definition block_draws (n : nat) : Q :=
  match n with 3%nat => 1 # 5 | 5%nat => 99 # 100 | _ => 0 end.

(** Row [y] of a [W]-pixel-wide image, as its list of RGBA pixels. *)
Definition row (d : list Z) (W y : Z) : list px :=
  map (fun x => read4 d (4 * (y * W + Z.of_nat x))) (seq 0 (Z.to_nat W)).

(** All pixels of a W x H image, row by row. *)
Definition all_pixels (d : list Z) (W H : Z) : list px :=
  flat_map (fun y => row d W (Z.of_nat y)) (seq 0 (Z.to_nat H)).

Definition px_bytes (p : px) : list Z := [pR p; pG p; pB p; pA p].

(** Invariant of the pixel-sort loop: the buffer keeps its length and every
    row is a permutation of the same row of [d0]. *)
Definition sort_inv (W H : Z) (d0 : list Z) (s : St) : Prop :=
  Zlength (buf s) = 4 * (W * H) /\
  forall y, Permutation (row (buf s) W y) (row d0 W y).



(** A computation that never fails and keeps the property [P] of the buffer
    and the copy log. *)
Definition keeps (P : list Z -> list copy_entry -> Prop) (m : M unit) : Prop :=
  forall s, P (buf s) (log s) -> exists s', m s = Some (tt, s') /\ P (buf s') (log s').

(** Brightness [R + G + B] of a pixel, the key of the row sort. *)
Definition brightness (p : px) : Z := pR p + pG p + pB p.

(** A logged row copy whose destination row segment lies inside the
    W x H image: columns [[destX, destX + len / 4)] within [[0, W)], and the
    copied row [destY + y] within [[0, H)]. *)
Definition block_entry_ok (W H : Z) (e : copy_entry) : Prop :=
  let '(destX, destY, destStart, len) := e in
  0 <= destX /\ 4 * destX + len <= 4 * W /\ 0 <= destY /\
  exists y, 0 <= y /\ destY + y < H /\ destStart = ((destY + y) * W + destX) * 4.

(** [toLowerCase] on ASCII letters. *)
Definition lower_ascii_char (c : ascii) : ascii :=
  let n := nat_of_ascii c in
  if Nat.leb 65 n && Nat.leb n 90 then ascii_of_nat (n + 32) else c.

Fixpoint lower_ascii (s : string) : string :=
  match s with
  | EmptyString => EmptyString
  | String c r => String (lower_ascii_char c) (lower_ascii r)
  end.

(** No two users share a name up to [toLowerCase]. *)
Definition users_unique (toLowerCase : string -> string) (s : Store) : Prop :=
  match db_users s with
  | Some (Parsed l) => NoDup (map (fun u => toLowerCase (username u)) l)
  | _ => True
  end.

(** Sample stores for the storage examples. *)
Definition fits_all : Store -> bool := fun _ => true.
Definition ada : User := mkUser "Ada"%string "t0"%string (Some (avatar_prefix ++ "Ada")%string).
Definition bob : User := mkUser "bob"%string "t1"%string None.
Definition store_ada : Store := mkStore (Some (Parsed [ada])) None (Some "Ada"%string).
(** A quota that holds at most five posts, and a store with six of them. *)
Definition fits_5 (s : Store) : bool := Nat.leb (List.length (getPosts s)) 5.
Definition old_post : Post := mkPost "p0"%string "Ada"%string "x"%string PImage ""%string 0 0.
Definition store_six : Store := mkStore (Some (Parsed [ada])) (Some (Parsed (repeat old_post 6))) None.

(** Invariant of the scanline pass: buffer length and copy log kept, alpha
    bytes and bytes of rows the pass skips unchanged. *)
Definition scan_guard (d0 : list Z) (l0 : list copy_entry) (W lineSkip : Z)
    (b : list Z) (l : list copy_entry) : Prop :=
  l = l0 /\ Zlength b = Zlength d0 /\
  forall j, 0 <= j < Zlength d0 -> j mod 4 = 3 \/ rem_is_zero (j / (4 * W)) lineSkip = false ->
    rd b j = rd d0 j.

(** [safe_st] on the buffer and the copy log. *)
Definition safe_bl (L : Z) (b : list Z) (l : list copy_entry) : Prop :=
  Zlength b = L /\ Forall (in_bounds L) l.

(** The copy log has grown from [l0] by copies inside a W x H image. *)
Definition grows_ok (W H : Z) (l0 : list copy_entry) (b : list Z) (l : list copy_entry) : Prop :=
  exists nw, l = l0 ++ nw /\ Forall (block_entry_ok W H) nw.

(** [a] comes before [b] in the order of [key], ties broken by position. *)
Definition bright_before (key : Z -> Z) (a b : Z) : Prop :=
  key a < key b \/ (key a = key b /\ a < b).

(** Squared RGB distance of a pixel to the key color. *)
Definition key_dist_sq (target : Z * Z * Z) (p : px) : Z :=
  let '(tr, tg, tb) := target in
  (pR p - tr) * (pR p - tr) + (pG p - tg) * (pG p - tg) + (pB p - tb) * (pB p - tb).

(** * Proofs *)

(** ** Binary64 rounding: sign, zero and the smallest positive value *)

Lemma pow2q_Qpower e : (pow2q e == (2 # 1) ^ e)%Q.
Proof.
  unfold pow2q. destruct (Z.leb_spec 0 e).
  - rewrite Zpower_Qpower by lia. reflexivity.
  - replace e with (- (- e)) by lia.
    rewrite Qpower_opp. change (2 # 1)%Q with (inject_Z 2).
    rewrite <- Zpower_Qpower by lia.
    replace (- - e) with e by lia.
    assert (P : 0 < 2 ^ (- e)) by (apply Z.pow_pos_nonneg; lia).
    destruct (2 ^ (- e)) eqn:E; try lia. reflexivity.
Qed.

Lemma pow2q_pos e : (0 < pow2q e)%Q.
Proof. rewrite pow2q_Qpower. apply Qpower_0_lt. reflexivity. Qed.

Lemma pow2q_le e1 e2 : e1 <= e2 -> (pow2q e1 <= pow2q e2)%Q.
Proof.
  intros H. rewrite !pow2q_Qpower. apply Qpower_le_compat_l; [lia | discriminate].
Qed.

Lemma qlog2_low a : (0 < a)%Q -> (pow2q (qlog2 a) <= a)%Q.
Proof.
  intros Ha. unfold qlog2.
  set (e0 := Z.log2 (Qnum a) - Z.log2 (Zpos (Qden a))).
  destruct (Qle_bool (pow2q e0) a) eqn:E; [apply Qle_bool_iff, E |].
  destruct a as [n d]. unfold Qlt in Ha; simpl in Ha. cbn [Qnum Qden] in e0 |- *.
  assert (Hn : 0 < n) by lia.
  destruct (Z.log2_spec n Hn) as [N1 N2].
  destruct (Z.log2_spec (Zpos d) ltac:(lia)) as [D1 D2].
  set (ln := Z.log2 n) in *. set (ld := Z.log2 (Zpos d)) in *.
  assert (L0 : 0 <= ln) by apply Z.log2_nonneg.
  assert (L1 : 0 <= ld) by apply Z.log2_nonneg.
  rewrite pow2q_Qpower.
  replace (e0 - 1) with (ln - (ld + 1)) by (unfold e0; lia).
  rewrite Qpower_minus by discriminate. change (2 # 1)%Q with (inject_Z 2).
  rewrite <- !Zpower_Qpower by lia.
  assert (Q : (n # d == inject_Z n / inject_Z (Zpos d))%Q).
  { unfold Qdiv, Qeq; simpl. lia. }
  rewrite Q.
  apply Qle_shift_div_l; [unfold Qlt; simpl; lia |].
  unfold Qdiv. rewrite <- Qmult_assoc, (Qmult_comm (/ _)), Qmult_assoc.
  assert (P : 0 < 2 ^ (ld + 1)) by (apply Z.pow_pos_nonneg; lia).
  apply Qle_shift_div_r; [unfold Qlt; simpl; lia |].
  unfold Qle; simpl. rewrite !Z.mul_1_r. unfold Z.succ in *. nia.
Qed.

Lemma round_even_ge x : Qfloor x <= round_even x.
Proof.
  unfold round_even. destruct (Qltb _ _); [lia |].
  destruct (Qltb _ _); [lia |]. destruct (Z.even _); lia.
Qed.

Lemma Qfloor_nonneg x : (0 <= x)%Q -> 0 <= Qfloor x.
Proof. intros H. apply Qfloor_resp_le in H. change (Qfloor 0) with 0 in H. exact H. Qed.

Lemma Qfloor_ge1 x : (1 <= x)%Q -> 1 <= Qfloor x.
Proof. intros H. apply Qfloor_resp_le in H. change (Qfloor 1) with 1 in H. exact H. Qed.

Lemma fl_zero q : (q == 0)%Q -> fl q = 0%Q.
Proof. intros H. unfold fl. apply Qeq_bool_iff in H. rewrite H. reflexivity. Qed.

Lemma fl_mantissa_nonneg q e : 0 <= round_even (Qabs q / pow2q e).
Proof.
  eapply Z.le_trans; [| apply round_even_ge]. apply Qfloor_nonneg.
  apply Qle_shift_div_l; [apply pow2q_pos |]. rewrite Qmult_0_l. apply Qabs_nonneg.
Qed.

Lemma fl_nonneg q : (0 <= q)%Q -> (0 <= fl q)%Q.
Proof.
  intros H. unfold fl. destruct (Qeq_bool q 0); [apply Qle_refl |].
  replace (Qle_bool 0 q) with true by (symmetry; apply Qle_bool_iff, H).
  apply Qmult_le_0_compat; [| apply Qlt_le_weak, pow2q_pos].
  unfold Qle; simpl. rewrite Z.mul_1_r. apply fl_mantissa_nonneg.
Qed.

Lemma fl_pos_min q : (0 < fl q)%Q -> (pow2q (-1074) <= fl q)%Q.
Proof.
  unfold fl. destruct (Qeq_bool q 0); [intros H; discriminate H |].
  set (e := Z.max (qlog2 (Qabs q) - 52) (-1074)).
  set (m := round_even (Qabs q / pow2q e)).
  assert (Hm : 0 <= m) by apply fl_mantissa_nonneg.
  assert (Hp := pow2q_pos e).
  destruct (Qle_bool 0 q); intros H.
  - assert (Hm1 : 1 <= m).
    { destruct (Z.eq_dec m 0) as [E|]; [| lia].
      rewrite E in H. rewrite Qmult_0_l in H. discriminate H. }
    apply Qle_trans with (pow2q e); [apply pow2q_le; unfold e; lia |].
    rewrite <- (Qmult_1_l (pow2q e)) at 1.
    apply Qmult_le_compat_r; [unfold Qle; simpl; lia | apply Qlt_le_weak, Hp].
  - exfalso. apply (Qlt_not_le _ _ H).
    setoid_replace 0%Q with (- 0)%Q by reflexivity. apply Qopp_le_compat.
    apply Qmult_le_0_compat; [unfold Qle; simpl; lia | apply Qlt_le_weak, Hp].
Qed.

Lemma fl_pos q : (pow2q (-1074) <= q)%Q -> (0 < fl q)%Q.
Proof.
  intros H. assert (Hq : (0 < q)%Q) by (eapply Qlt_le_trans; [apply pow2q_pos | exact H]).
  unfold fl. cbv zeta.
  replace (Qeq_bool q 0) with false.
  2: { symmetry. apply not_true_iff_false. intros E. apply Qeq_bool_iff in E.
       rewrite E in Hq. discriminate Hq. }
  replace (Qle_bool 0 q) with true by (symmetry; apply Qle_bool_iff, Qlt_le_weak, Hq).
  assert (Ha : (pow2q (-1074) <= Qabs q)%Q) by (eapply Qle_trans; [exact H | apply Qle_Qabs]).
  assert (Ha0 : (0 < Qabs q)%Q) by (eapply Qlt_le_trans; [apply pow2q_pos | exact Ha]).
  set (e := Z.max (qlog2 (Qabs q) - 52) (-1074)).
  assert (He : (pow2q e <= Qabs q)%Q).
  { unfold e. destruct (Z.max_spec (qlog2 (Qabs q) - 52) (-1074)) as [[_ E] | [_ E]]; rewrite E.
    - exact Ha.
    - eapply Qle_trans; [apply pow2q_le | apply qlog2_low, Ha0]. lia. }
  assert (Hp := pow2q_pos e).
  assert (Hm : 1 <= round_even (Qabs q / pow2q e)).
  { eapply Z.le_trans; [| apply round_even_ge]. apply Qfloor_ge1.
    apply Qle_shift_div_l; [exact Hp |]. rewrite Qmult_1_l. exact He. }
  apply Qmult_lt_0_compat; [unfold Qlt; simpl; lia | exact Hp].
Qed.


(** ** Buffer lemmas *)

Lemma upd_length (l : list Z) n v : List.length (upd l n v) = List.length l.
Proof. revert n; induction l; intros [|n]; simpl; auto. Qed.

Lemma nth_upd_same (l : list Z) n v : (n < List.length l)%nat -> nth n (upd l n v) 0 = v.
Proof.
  revert n; induction l; intros [|n] H; simpl in *; try lia; auto.
  all: apply IHl; lia.
Qed.

Lemma nth_upd_other (l : list Z) n m v : n <> m -> nth m (upd l n v) 0 = nth m l 0.
Proof.
  revert n m; induction l; intros [|n] [|m] H; simpl; auto; try lia.
  all: apply IHl; lia.
Qed.

Lemma upd_nth (l : list Z) n : upd l n (nth n l 0) = l.
Proof. revert n; induction l; intros [|n]; simpl; f_equal; auto. Qed.

Lemma Zlength_wr d i v : Zlength (wr d i v) = Zlength d.
Proof.
  unfold wr; destruct (i <? 0); auto.
  rewrite !Zlength_correct, upd_length; reflexivity.
Qed.

Lemma rd_wr_same d i v : 0 <= i < Zlength d -> rd (wr d i v) i = v.
Proof.
  intros H; unfold rd, wr.
  destruct (Z.ltb_spec i 0); try lia.
  apply nth_upd_same. rewrite Zlength_correct in H; lia.
Qed.

Lemma rd_wr_other d i j v : i <> j -> rd (wr d i v) j = rd d j.
Proof.
  intros H; unfold rd, wr.
  destruct (Z.ltb_spec i 0), (Z.ltb_spec j 0); auto.
  apply nth_upd_other; lia.
Qed.

Lemma wr_rd d i : wr d i (rd d i) = d.
Proof.
  unfold wr, rd. destruct (Z.ltb_spec i 0); auto. apply upd_nth.
Qed.

Lemma wr_same_val d d' i : rd d' i = rd d i -> wr d' i (rd d i) = d'.
Proof. intros <-; apply wr_rd. Qed.

Lemma rd_nth d (m : nat) : rd d (Z.of_nat m) = nth m d 0.
Proof.
  unfold rd. destruct (Z.ltb_spec (Z.of_nat m) 0); try lia.
  rewrite Nat2Z.id; reflexivity.
Qed.

Ltac rdwr :=
  repeat first
    [ rewrite rd_wr_same by (rewrite ?Zlength_wr; lia)
    | rewrite rd_wr_other by lia
    | rewrite Zlength_wr ].

Lemma Zlength_write4 d i p : Zlength (write4 d i p) = Zlength d.
Proof. unfold write4; rdwr; reflexivity. Qed.

Lemma read4_write4_same d i p :
  0 <= i -> i + 3 < Zlength d -> read4 (write4 d i p) i = p.
Proof.
  intros H1 H2; unfold read4, write4; destruct p; simpl; rdwr; reflexivity.
Qed.

Lemma read4_write4_other d a b p :
  a <> b -> read4 (write4 d (4 * a) p) (4 * b) = read4 d (4 * b).
Proof.
  intros H; unfold read4, write4; rdwr; reflexivity.
Qed.

(** Two buffers of [4 n] bytes with the same pixels are equal. *)
Lemma pixels_ext d1 d2 n :
  Zlength d1 = 4 * n -> Zlength d2 = 4 * n ->
  (forall k, 0 <= k < n -> read4 d1 (4 * k) = read4 d2 (4 * k)) -> d1 = d2.
Proof.
  intros L1 L2 H.
  apply nth_ext with (d := 0) (d' := 0).
  { rewrite Zlength_correct in L1, L2; lia. }
  intros m Hm.
  rewrite <- !rd_nth.
  assert (Hk : 0 <= Z.of_nat m / 4 < n).
  { rewrite Zlength_correct in L1; split; [apply Z.div_pos | apply Z.div_lt_upper_bound]; lia. }
  pose proof (H _ Hk) as E. unfold read4 in E. injection E as E0 E1 E2 E3.
  assert (Hd : Z.of_nat m = 4 * (Z.of_nat m / 4) + Z.of_nat m mod 4)
    by (apply Z.div_mod; lia).
  assert (Hr : 0 <= Z.of_nat m mod 4 < 4) by (apply Z.mod_pos_bound; lia).
  destruct (Z.eq_dec (Z.of_nat m mod 4) 0) as [e|e];
  [| destruct (Z.eq_dec (Z.of_nat m mod 4) 1) as [e'|e'];
  [| destruct (Z.eq_dec (Z.of_nat m mod 4) 2) as [e''|e'']]];
  rewrite Hd; try rewrite e; try rewrite e'; try rewrite e'';
  try (rewrite Z.add_0_r; exact E0); auto.
  assert (Z.of_nat m mod 4 = 3) as -> by lia; auto.
Qed.

(** ** Pixel-local loops

    A loop body that replaces the pixel at [i] by a function of that pixel
    turns [for (i = 0; i < len; i += 4)] into a pixel-wise map. *)

Section PixelLoop.
Variable G : Z -> px -> px.
Variable body : Z -> list Z -> list Z.
Hypothesis body_len : forall i d, Zlength (body i d) = Zlength d.
Hypothesis body_px : forall i d, 0 <= i -> i + 3 < Zlength d ->
  body i d = write4 d i (G i (read4 d i)).

Lemma loop4_px (m : nat) : forall j d, 0 <= j -> Zlength d = 4 * (j + Z.of_nat m) ->
  Zlength (loop4 m (4 * j) body d) = Zlength d /\
  forall k, 0 <= k < j + Z.of_nat m ->
    read4 (loop4 m (4 * j) body d) (4 * k) =
    if k <? j then read4 d (4 * k) else G (4 * k) (read4 d (4 * k)).
Proof.
  induction m as [|m IH]; intros j d Hj Hl; cbn [loop4].
  - split; auto. intros k Hk. destruct (Z.ltb_spec k j); auto; lia.
  - assert (E : 4 * j + 4 = 4 * (j + 1)) by lia. rewrite E.
    assert (Hb : body (4 * j) d = write4 d (4 * j) (G (4 * j) (read4 d (4 * j))))
      by (apply body_px; lia).
    destruct (IH (j + 1) (body (4 * j) d)) as [L R]; [lia | rewrite body_len; lia |].
    split; [rewrite L, body_len; reflexivity |].
    intros k Hk. rewrite R by lia. rewrite Hb.
    destruct (Z.ltb_spec k (j + 1)), (Z.ltb_spec k j); try lia.
    + apply read4_write4_other; lia.
    + assert (k = j) by lia; subst k.
      apply read4_write4_same; lia.
    + f_equal. apply read4_write4_other; lia.
Qed.

Lemma for_px_px d n : Zlength d = 4 * n ->
  Zlength (for_px (Zlength d) body d) = Zlength d /\
  forall k, 0 <= k < n -> read4 (for_px (Zlength d) body d) (4 * k) = G (4 * k) (read4 d (4 * k)).
Proof.
  intros Hl. unfold for_px.
  assert (Hn : 0 <= n) by (rewrite Zlength_correct in Hl; lia).
  assert (E : Z.to_nat ((Zlength d + 3) / 4) = Z.to_nat n).
  { f_equal. rewrite Hl. rewrite Z.mul_comm, Z.div_add_l by lia. change (3 / 4) with 0. lia. }
  rewrite E.
  destruct (loop4_px (Z.to_nat n) 0 d) as [L R]; [lia | lia |].
  split; auto. intros k Hk. rewrite R by lia.
  destruct (Z.ltb_spec k 0); try lia; reflexivity.
Qed.

End PixelLoop.

(** ** Threshold pass *)


Lemma threshold_body_px t i d : 0 <= i -> i + 3 < Zlength d ->
  threshold_body t i d = write4 d i (threshold_px t (read4 d i)).
Proof.
  intros H1 H2. unfold threshold_body, write4, threshold_px, read4; simpl.
  symmetry. apply wr_same_val. rdwr. reflexivity.
Qed.

Lemma threshold_body_len t i d : Zlength (threshold_body t i d) = Zlength d.
Proof. unfold threshold_body; rdwr; reflexivity. Qed.

Lemma threshold_px_twice t p : (0 < t)%Q -> (t <= 255)%Q ->
  threshold_px t (threshold_px t p) = threshold_px t p.
Proof.
  intros H0 H1. unfold threshold_px.
  destruct (Qle_bool t (inject_Z (pR p + pG p + pB p) / 3)); cbn [pR pG pB pA].
  - assert (E : Qle_bool t (inject_Z (255 + 255 + 255) / 3) = true).
    { apply Qle_bool_iff. eapply Qle_trans; [exact H1 |]. unfold Qle; simpl; lia. }
    rewrite E; reflexivity.
  - assert (E : Qle_bool t (inject_Z (0 + 0 + 0) / 3) = false).
    { apply not_true_iff_false; rewrite Qle_bool_iff.
      intro C. apply (Qlt_not_le _ _ H0). eapply Qle_trans; [exact C |].
      unfold Qle; simpl; lia. }
    rewrite E; reflexivity.
Qed.

(** C1: the threshold pass makes R, G, B binary, keeps alpha and is
    idempotent. *)
Theorem applyThreshold_binary_idempotent (d : list Z) (t : Q) (n : Z) :
  Zlength d = 4 * n -> (0 < t)%Q -> (t <= 255)%Q ->
  let d' := applyThreshold d t in
  Zlength d' = Zlength d /\
  (forall k, 0 <= k < n ->
     let v := if Qle_bool t (inject_Z (rd d (4 * k) + rd d (4 * k + 1) + rd d (4 * k + 2)) / 3)
              then 255 else 0 in
     (v = 0 \/ v = 255) /\
     rd d' (4 * k) = v /\ rd d' (4 * k + 1) = v /\ rd d' (4 * k + 2) = v /\
     rd d' (4 * k + 3) = rd d (4 * k + 3)) /\
  applyThreshold d' t = d'.
Proof.
  intros Hl H0 H1 d'.
  assert (Ht : Qle_bool t 0 = false).
  { apply not_true_iff_false; rewrite Qle_bool_iff. intro C.
    apply (Qlt_not_le _ _ H0 C). }
  assert (Hd' : d' = for_px (Zlength d) (threshold_body t) d)
    by (unfold d', applyThreshold; rewrite Ht; reflexivity).
  destruct (for_px_px (fun _ => threshold_px t) (threshold_body t)
              (threshold_body_len t) (threshold_body_px t) d n Hl) as [L R].
  rewrite <- Hd' in L, R.
  split; [exact L |]. split.
  - intros k Hk v. pose proof (R k Hk) as E.
    pose proof (f_equal pR E) as E0; pose proof (f_equal pG E) as E1;
    pose proof (f_equal pB E) as E2; pose proof (f_equal pA E) as E3.
    cbn [read4 threshold_px pR pG pB pA] in E0, E1, E2, E3.
    split; [unfold v; destruct (Qle_bool t (inject_Z _ / 3)); auto |].
    repeat split; auto.
  - unfold applyThreshold at 1. rewrite Ht.
    destruct (for_px_px (fun _ => threshold_px t) (threshold_body t)
                (threshold_body_len t) (threshold_body_px t) d' n) as [L2 R2];
      [congruence |].
    apply pixels_ext with n; [congruence | congruence |].
    intros k Hk. rewrite R2, R by assumption.
    apply threshold_px_twice; assumption.
Qed.

Lemma applyThreshold_binary_idempotent_witness :
  let d := [10; 20; 30; 255; 200; 220; 240; 7] in
  (Zlength d = 4 * 2 /\ (0 < 128)%Q /\ (128 <= 255)%Q) /\
  (let d' := applyThreshold d 128 in
   Zlength d' = Zlength d /\
   (forall k, 0 <= k < 2 ->
      let v := if Qle_bool 128 (inject_Z (rd d (4 * k) + rd d (4 * k + 1) + rd d (4 * k + 2)) / 3)
               then 255 else 0 in
      (v = 0 \/ v = 255) /\
      rd d' (4 * k) = v /\ rd d' (4 * k + 1) = v /\ rd d' (4 * k + 2) = v /\
      rd d' (4 * k + 3) = rd d (4 * k + 3)) /\
   applyThreshold d' 128 = d').
Proof.
  intros d. split.
  - split; [reflexivity | split; unfold Qlt, Qle; simpl; lia].
  - apply (applyThreshold_binary_idempotent d 128 2);
      [reflexivity | unfold Qlt; simpl; lia | unfold Qle; simpl; lia].
Defined.

(** ** 32-bit operators on small operands *)

Lemma to_int32_small z : 0 <= z < 2 ^ 31 -> to_int32 z = z.
Proof.
  intros H. unfold to_int32. rewrite Z.mod_small by lia.
  destruct (Z.leb_spec (2 ^ 31) z); lia.
Qed.

Lemma js_shl2_small a : 0 <= a -> 4 * a < 2 ^ 31 -> js_shl a 2 = 4 * a.
Proof.
  intros H1 H2. unfold js_shl. rewrite (to_int32_small a) by lia.
  rewrite Z.mod_small by lia. rewrite Z.shiftl_mul_pow2 by lia.
  rewrite to_int32_small; change (2 ^ 2) with 4; lia.
Qed.

Lemma js_ushr_4k k : 0 <= k -> 4 * k < 2 ^ 32 -> js_ushr (4 * k) 2 = k.
Proof.
  intros H1 H2. unfold js_ushr. rewrite (Z.mod_small (4 * k)) by lia.
  rewrite Z.mod_small by lia. rewrite Z.shiftr_div_pow2 by lia.
  change (2 ^ 2) with 4. rewrite Z.mul_comm, Z.div_mul; lia.
Qed.

(** Pixel [k = y * W + x] of a [W]-wide buffer splits into its column and
    row as the code computes them. *)
Lemma pixel_coords W k : 0 < W -> 0 <= k ->
  Z.rem k W = k mod W /\ (k - Z.rem k W) / W = k / W.
Proof.
  intros HW Hk. rewrite Z.rem_mod_nonneg by lia. split; auto.
  rewrite (Z.div_mod k W) at 1 by lia.
  replace (W * (k / W) + k mod W - k mod W) with ((k / W) * W) by ring.
  apply Z.div_mul; lia.
Qed.

(** ** Channel shift *)



Lemma rgb_shift_body_px buffer width offset len i d : 0 <= i -> i + 3 < Zlength d ->
  rgb_shift_body buffer width offset len i d =
  write4 d i (rgb_G buffer width offset len i (read4 d i)).
Proof.
  intros H1 H2. unfold rgb_shift_body, rgb_G; fold (rgb_src width offset i).
  destruct (rgb_src width offset i <? len).
  - unfold write4, read4; simpl.
    repeat (rewrite wr_same_val by (rdwr; reflexivity)). reflexivity.
  - unfold write4, read4; simpl.
    repeat (rewrite wr_same_val by (rdwr; reflexivity)). reflexivity.
Qed.

Lemma rgb_shift_body_len buffer width offset len i d :
  Zlength (rgb_shift_body buffer width offset len i d) = Zlength d.
Proof. unfold rgb_shift_body; destruct (_ <? _); rdwr; reflexivity. Qed.

Lemma rgb_src_pixel W H offset x y :
  1 <= W <= 2048 -> 0 <= H <= 2048 -> 0 <= x < W -> 0 <= y < H -> 0 <= offset ->
  rgb_src W offset (4 * (y * W + x)) = 4 * (y * W + (x + offset) mod W).
Proof.
  intros HW HH Hx Hy Ho. unfold rgb_src.
  assert (HWH : W * H <= 2048 * 2048) by nia.
  rewrite js_ushr_4k by nia.
  destruct (pixel_coords W (y * W + x)) as [E1 E2]; [lia | nia |].
  rewrite E2, E1.
  assert (Ex : (y * W + x) mod W = x).
  { rewrite Z.add_comm, Z.mod_add by lia. apply Z.mod_small; lia. }
  assert (Ey : (y * W + x) / W = y).
  { rewrite Z.add_comm, Z.div_add by lia. rewrite Z.div_small by lia. lia. }
  rewrite Ex, Ey. rewrite Z.rem_mod_nonneg by lia.
  assert (0 <= (x + offset) mod W < W) by (apply Z.mod_pos_bound; lia).
  apply js_shl2_small; nia.
Qed.

(** C7: a zero shift is the identity; a shift by [offset] replaces each
    pixel's red channel by the red channel [offset] columns to the right
    (wrapping) in the same row of the pre-pass buffer and keeps G, B, A. *)
Theorem rgb_shift_red_only (d : list Z) (W H offset : Z) :
  1 <= W <= 2048 -> 0 <= H <= 2048 -> Zlength d = 4 * (W * H) -> 0 <= offset <= 50 ->
  rgb_shift d W H 0 = d /\
  let d' := rgb_shift d W H offset in
  Zlength d' = Zlength d /\
  forall x y, 0 <= x < W -> 0 <= y < H ->
    rd d' (4 * (y * W + x)) = rd d (4 * (y * W + (x + offset) mod W)) /\
    rd d' (4 * (y * W + x) + 1) = rd d (4 * (y * W + x) + 1) /\
    rd d' (4 * (y * W + x) + 2) = rd d (4 * (y * W + x) + 2) /\
    rd d' (4 * (y * W + x) + 3) = rd d (4 * (y * W + x) + 3).
Proof.
  intros HW HH Hl Ho. split; [reflexivity |]. intros d'.
  destruct (Z.eq_dec offset 0) as [->|Hne].
  - split; [reflexivity |]. intros x y Hx Hy.
    rewrite Z.add_0_r, (Z.mod_small x W) by lia. repeat split; reflexivity.
  - assert (Hd' : d' = for_px (Zlength d) (rgb_shift_body d W offset (Zlength d)) d).
    { unfold d', rgb_shift. destruct (Z.eqb_spec offset 0); [lia | reflexivity]. }
    destruct (for_px_px (rgb_G d W offset (Zlength d)) (rgb_shift_body d W offset (Zlength d))
                (rgb_shift_body_len d W offset (Zlength d))
                (rgb_shift_body_px d W offset (Zlength d)) d (W * H) Hl) as [L R].
    rewrite <- Hd' in L, R. split; [exact L |].
    intros x y Hx Hy.
    assert (Hk : 0 <= y * W + x < W * H) by nia.
    pose proof (R _ Hk) as E. unfold rgb_G in E.
    rewrite (rgb_src_pixel W H offset x y) in E by lia.
    assert (0 <= (x + offset) mod W < W) by (apply Z.mod_pos_bound; lia).
    destruct (Z.ltb_spec (4 * (y * W + (x + offset) mod W)) (Zlength d)); [| nia].
    pose proof (f_equal pR E) as E0; pose proof (f_equal pG E) as E1;
    pose proof (f_equal pB E) as E2; pose proof (f_equal pA E) as E3.
    cbn [read4 pR pG pB pA] in E0, E1, E2, E3.
    repeat split; assumption.
Qed.

Lemma rgb_shift_red_only_witness :
  let d := [1; 2; 3; 4; 5; 6; 7; 8] in
  (1 <= 2 <= 2048 /\ 0 <= 1 <= 2048 /\ Zlength d = 4 * (2 * 1) /\ 0 <= 1 <= 50) /\
  (rgb_shift d 2 1 0 = d /\
   let d' := rgb_shift d 2 1 1 in
   Zlength d' = Zlength d /\
   forall x y, 0 <= x < 2 -> 0 <= y < 1 ->
     rd d' (4 * (y * 2 + x)) = rd d (4 * (y * 2 + (x + 1) mod 2)) /\
     rd d' (4 * (y * 2 + x) + 1) = rd d (4 * (y * 2 + x) + 1) /\
     rd d' (4 * (y * 2 + x) + 2) = rd d (4 * (y * 2 + x) + 2) /\
     rd d' (4 * (y * 2 + x) + 3) = rd d (4 * (y * 2 + x) + 3)).
Proof.
  intros d. split.
  - repeat split; try lia; reflexivity.
  - apply (rgb_shift_red_only d 2 1 1); try lia; reflexivity.
Defined.

(** ** Hard-mix blend *)


Lemma hard_mix_body_px bd thresh mix255 i d : 0 <= i -> i + 3 < Zlength d ->
  hard_mix_body bd thresh mix255 i d = write4 d i (hard_mix_G bd thresh mix255 i (read4 d i)).
Proof.
  intros H1 H2. unfold hard_mix_body, hard_mix_G, wrq, write4, read4; simpl.
  symmetry. rewrite wr_same_val by (rdwr; reflexivity). reflexivity.
Qed.

Lemma hard_mix_body_len bd thresh mix255 i d :
  Zlength (hard_mix_body bd thresh mix255 i d) = Zlength d.
Proof. unfold hard_mix_body, wrq; rdwr; reflexivity. Qed.

Lemma renderBlend_hard_mix rng B W H params A : mode params = HardMix ->
  renderBlend rng (Some B) W H params A =
  Some (for_px (Zlength A)
          (hard_mix_body B (bthreshold params) (mix params / 100 * 255)%Q) A).
Proof.
  intros Hm. unfold renderBlend, renderBlend_M. rewrite Hm. reflexivity.
Qed.


(** C4 (counterexample): with A = 100 and B = 101 on the red channel,
    threshold 100 and mix 100, the exact average 100.5 is above the
    threshold and the claim gives 255, but the code averages with [>> 1]
    to 100, which is not above it, and writes 0. *)
Lemma hard_mix_exact_average_counterexample :
  renderBlend (fun _ => 0%Q) (Some [101; 0; 0; 255]) 1 1 (mkBlend HardMix 100 100 1)
              [100; 0; 0; 255] = Some [0; 0; 0; 255] /\
  to_uint8_clamp (hard_mix_claimed 100 100 100 101) = 255.
Proof. split; vm_compute; reflexivity. Qed.

(** C4 (amended): each of R, G, B becomes the byte of
    [min(255, avg + mix*2.55)] when [avg > threshold] and of
    [max(0, avg - mix*2.55)] otherwise, where [avg = floor((A+B)/2)];
    alpha is unchanged. *)
Theorem hard_mix_floor_average rng A B W H params n :
  mode params = HardMix -> Zlength A = 4 * n ->
  exists A', renderBlend rng (Some B) W H params A = Some A' /\
    Zlength A' = Zlength A /\
    forall k, 0 <= k < n ->
      (forall c, 0 <= c < 3 ->
         let avg := (rd A (4 * k + c) + rd B (4 * k + c)) / 2 in
         rd A' (4 * k + c) =
         to_uint8_clamp
           (if Qltb (bthreshold params) (inject_Z avg)
            then Qmin 255 (inject_Z avg + mix params / 100 * 255)
            else Qmax 0 (inject_Z avg - mix params / 100 * 255))) /\
      rd A' (4 * k + 3) = rd A (4 * k + 3).
Proof.
  intros Hm Hl. rewrite renderBlend_hard_mix by exact Hm.
  eexists; split; [reflexivity |].
  set (t := bthreshold params). set (m := (mix params / 100 * 255)%Q).
  destruct (for_px_px (hard_mix_G B t m) (hard_mix_body B t m)
              (hard_mix_body_len B t m) (hard_mix_body_px B t m) A n Hl) as [L R].
  split; [exact L |]. intros k Hk. pose proof (R k Hk) as E.
  pose proof (f_equal pR E) as E0; pose proof (f_equal pG E) as E1;
  pose proof (f_equal pB E) as E2; pose proof (f_equal pA E) as E3.
  cbn [read4 hard_mix_G pR pG pB pA] in E0, E1, E2, E3.
  rewrite !Z.shiftr_div_pow2 in E0, E1, E2 by lia. change (2 ^ 1) with 2 in E0, E1, E2.
  split; [| exact E3].
  intros c Hc.
  assert (Hc3 : c = 0 \/ c = 1 \/ c = 2) by lia.
  destruct Hc3 as [Hc0 | [Hc0 | Hc0]]; subst c.
  - rewrite Z.add_0_r. exact E0.
  - exact E1.
  - exact E2.
Qed.

Lemma hard_mix_floor_average_witness :
  let A := [100; 50; 200; 255] in let B := [101; 60; 10; 0] in
  let params := mkBlend HardMix 100 100 1 in
  (mode params = HardMix /\ Zlength A = 4 * 1) /\
  exists A', renderBlend (fun _ => 0%Q) (Some B) 1 1 params A = Some A' /\
    Zlength A' = Zlength A /\
    forall k, 0 <= k < 1 ->
      (forall c, 0 <= c < 3 ->
         let avg := (rd A (4 * k + c) + rd B (4 * k + c)) / 2 in
         rd A' (4 * k + c) =
         to_uint8_clamp
           (if Qltb (bthreshold params) (inject_Z avg)
            then Qmin 255 (inject_Z avg + mix params / 100 * 255)
            else Qmax 0 (inject_Z avg - mix params / 100 * 255))) /\
      rd A' (4 * k + 3) = rd A (4 * k + 3).
Proof.
  intros A B params. split; [split; reflexivity |].
  apply (hard_mix_floor_average (fun _ => 0%Q) A B 1 1 params 1); reflexivity.
Defined.

(** ** Chroma key *)

Section PixelLoop1.
Variable G : px -> px.
Variable body : Z -> list Z -> list Z.
Hypothesis body_len : forall i d, Zlength (body i d) = Zlength d.
Hypothesis body_px : forall i d, 0 <= i -> i * 4 + 3 < Zlength d ->
  body i d = write4 d (4 * i) (G (read4 d (4 * i))).

Lemma loop1_px (m : nat) : forall j d, 0 <= j -> Zlength d = 4 * (j + Z.of_nat m) ->
  Zlength (loop1 m j body d) = Zlength d /\
  forall k, 0 <= k < j + Z.of_nat m ->
    read4 (loop1 m j body d) (4 * k) =
    if k <? j then read4 d (4 * k) else G (read4 d (4 * k)).
Proof.
  induction m as [|m IH]; intros j d Hj Hl; cbn [loop1].
  - split; auto. intros k Hk. destruct (Z.ltb_spec k j); auto; lia.
  - assert (Hb : body j d = write4 d (4 * j) (G (read4 d (4 * j)))) by (apply body_px; lia).
    destruct (IH (j + 1) (body j d)) as [L R]; [lia | rewrite body_len; lia |].
    split; [rewrite L, body_len; reflexivity |].
    intros k Hk. rewrite R by lia. rewrite Hb.
    destruct (Z.ltb_spec k (j + 1)), (Z.ltb_spec k j); try lia.
    + apply read4_write4_other; lia.
    + assert (k = j) by lia; subst k. apply read4_write4_same; lia.
    + f_equal. apply read4_write4_other; lia.
Qed.
End PixelLoop1.


Lemma chroma_body_len target t s sp i d :
  Zlength (chroma_body target t s sp i d) = Zlength d.
Proof.
  unfold chroma_body, wrq; destruct target as [[tr tg] tb].
  repeat (destruct (_ && _) || destruct (Qltb _ _)); rdwr; reflexivity.
Qed.

Lemma chroma_body_px target t s sp i d : 0 <= i -> i * 4 + 3 < Zlength d ->
  chroma_body target t s sp i d = write4 d (4 * i) (chroma_G target t s sp (read4 d (4 * i))).
Proof.
  intros H1 H2. unfold chroma_body, chroma_G, write4, read4, wrq.
  destruct target as [[tr tg] tb]. rewrite Z.add_0_r, (Z.mul_comm i 4). cbn [pR pG pB pA].
  destruct (Qltb _ _); cbn [pR pG pB pA].
  { repeat (rewrite wr_same_val by (rdwr; reflexivity)). reflexivity. }
  destruct (_ && _); cbn [pR pG pB pA].
  - destruct (Qltb 0 sp); cbn [pR pG pB pA];
      repeat (rewrite wr_same_val by (rdwr; reflexivity)); reflexivity.
  - repeat (rewrite wr_same_val by (rdwr; reflexivity)); reflexivity.
Qed.

Lemma applyChromaKey_px W H params d n : enabled params = true -> Zlength d = 4 * n ->
  let target := hexToRgb (keyColor params) in
  let t := fl_mul (fl_mul (similarity params) 442) (fl_mul (similarity params) 442) in
  let s := fl_mul (smoothness params) 100 in
  let d' := applyChromaKey W H params d in
  Zlength d' = Zlength d /\
  forall k, 0 <= k < n -> read4 d' (4 * k) = chroma_G target t s (spill params) (read4 d (4 * k)).
Proof.
  intros He Hl target t s d'.
  assert (Hn : 0 <= n) by (rewrite Zlength_correct in Hl; lia).
  assert (Hd' : d' = loop1 (Z.to_nat n) 0 (chroma_body target t s (spill params)) d).
  { unfold d', applyChromaKey. rewrite He. cbn [negb].
    f_equal. rewrite Hl, Z.mul_comm, Z.div_add_l by lia. change (3 / 4) with 0.
    rewrite Z.add_0_r; reflexivity. }
  destruct (loop1_px (chroma_G target t s (spill params)) (chroma_body target t s (spill params))
              (chroma_body_len target t s (spill params))
              (chroma_body_px target t s (spill params)) (Z.to_nat n) 0 d) as [L R];
    [lia | lia |].
  rewrite <- Hd' in L, R. split; auto.
  intros k Hk. rewrite R by lia. destruct (Z.ltb_spec k 0); [lia | reflexivity].
Qed.

(** C2 (counterexample): with similarity 0 and smoothness 0 a pixel equal to
    the key color keeps its alpha: [0 < 0] fails and the ramp is off. *)
Lemma chroma_zero_similarity_counterexample :
  hexToRgb "#00ff00" = (0, 255, 0) /\
  applyChromaKey 1 1 (mkChroma true "#00ff00" 0 0 0) [0; 255; 0; 255] = [0; 255; 0; 255].
Proof. split; vm_compute; reflexivity. Qed.

Lemma Qltb_true x y : (x < y)%Q -> Qltb x y = true.
Proof.
  intros H. unfold Qltb. apply negb_true_iff, not_true_iff_false.
  rewrite Qle_bool_iff. intro C. apply (Qlt_not_le _ _ H C).
Qed.

Lemma Qltb_false x y : (y <= x)%Q -> Qltb x y = false.
Proof. intros H. unfold Qltb. apply negb_false_iff, Qle_bool_iff, H. Qed.

(** The chroma-key map on a pixel equal to the key color, for non-negative
    binary64 thresholds. *)
Lemma chroma_G_key tr tg tb a t sr sp : (0 <= t)%Q -> (0 <= sr)%Q ->
  (((0 < t)%Q \/ (0 < fl_mul sr sr)%Q) -> pA (chroma_G (tr, tg, tb) t sr sp (Px tr tg tb a)) = 0) /\
  (~ (0 < t)%Q -> ~ (0 < fl_mul sr sr)%Q -> chroma_G (tr, tg, tb) t sr sp (Px tr tg tb a) = Px tr tg tb a).
Proof.
  intros Ht Hsr. unfold chroma_G. cbn [pR pG pB]. rewrite !Z.sub_diag. cbn [Z.mul Z.add].
  change (inject_Z 0) with 0%Q. split.
  - intros [Hp | Hp].
    + rewrite Qltb_true by exact Hp. reflexivity.
    + destruct (Qlt_le_dec 0 t) as [Hp' | Hn]; [rewrite Qltb_true by exact Hp'; reflexivity |].
      assert (Ht0 : (t == 0)%Q) by (apply Qle_antisym; assumption).
      rewrite Qltb_false by exact Hn.
      assert (Hs : (0 < sr)%Q).
      { destruct (Qlt_le_dec 0 sr) as [|Hs]; [assumption |].
        assert (Hz : (sr == 0)%Q) by (apply Qle_antisym; assumption).
        unfold fl_mul in Hp. rewrite fl_zero in Hp by (rewrite Hz; reflexivity).
        exfalso; apply (Qlt_irrefl _ Hp). }
      rewrite (Qltb_true 0 sr) by exact Hs.
      rewrite Qltb_true.
      2: { unfold fl_add. apply fl_pos. apply Qle_trans with (fl_mul sr sr); [apply fl_pos_min, Hp |].
           apply Qle_trans with (0 + fl_mul sr sr)%Q; [rewrite Qplus_0_l; apply Qle_refl |].
           apply Qplus_le_compat; [exact Ht | apply Qle_refl]. }
      cbn [andb].
      assert (Hb : js_sqrt t = 0%Q).
      { unfold js_sqrt. replace (Qle_bool t 0) with true; [reflexivity |].
        symmetry; apply Qle_bool_iff; exact Hn. }
      rewrite Hb. change (js_sqrt 0) with 0%Q. change (fl_sub 0 0) with 0%Q.
      assert (Ha : fl_div 0 sr = 0%Q) by (unfold fl_div; apply fl_zero; unfold Qdiv; ring).
      rewrite Ha. destruct (Qltb 0 sp); reflexivity.
  - intros Hn Hn2.
    apply Qnot_lt_le in Hn. apply Qnot_lt_le in Hn2.
    rewrite Qltb_false by exact Hn.
    assert (Hsq : (0 <= fl_mul sr sr)%Q) by (apply fl_nonneg, Qmult_le_0_compat; exact Hsr).
    assert (Hsum : fl_add t (fl_mul sr sr) = 0%Q).
    { apply fl_zero. setoid_replace t with 0%Q by (apply Qle_antisym; assumption).
      setoid_replace (fl_mul sr sr) with 0%Q by (apply Qle_antisym; assumption). reflexivity. }
    rewrite Hsum. change (Qltb 0 0) with false. rewrite andb_false_r. reflexivity.
Qed.

(** C2 (amended): with similarity and smoothness in [0,1], a pixel equal to
    the parsed key color gets alpha 0 exactly when the binary64 value of
    [distThreshold^2 = (similarity * 442)^2] or of [(smoothness * 100)^2] is
    positive; otherwise the pixel is left unchanged, in particular when
    similarity and smoothness are both 0. *)
Theorem chroma_key_color_transparent W H params d n k :
  enabled params = true -> Zlength d = 4 * n -> 0 <= k < n ->
  (0 <= similarity params <= 1)%Q -> (0 <= smoothness params <= 1)%Q ->
  (rd d (4 * k), rd d (4 * k + 1), rd d (4 * k + 2)) = hexToRgb (keyColor params) ->
  let distThreshold := fl_mul (similarity params) 442 in
  let distThresholdSq := fl_mul distThreshold distThreshold in
  let smoothRange := fl_mul (smoothness params) 100 in
  let d' := applyChromaKey W H params d in
  (((0 < distThresholdSq)%Q \/ (0 < fl_mul smoothRange smoothRange)%Q) ->
     rd d' (4 * k + 3) = 0) /\
  (~ (0 < distThresholdSq)%Q -> ~ (0 < fl_mul smoothRange smoothRange)%Q ->
     read4 d' (4 * k) = read4 d (4 * k)) /\
  ((similarity params == 0)%Q -> (smoothness params == 0)%Q ->
     read4 d' (4 * k) = read4 d (4 * k)).
Proof.
  intros He Hl Hk [Hs0 _] [Hm0 _] Hkey dT dTS sR d'.
  destruct (applyChromaKey_px W H params d n He Hl) as [_ R].
  pose proof (R k Hk) as E. fold d' in E. change (fl_mul (fl_mul (similarity params) 442)
    (fl_mul (similarity params) 442)) with dTS in E. change (fl_mul (smoothness params) 100) with sR in E.
  assert (Hp : read4 d (4 * k) = Px (rd d (4 * k)) (rd d (4 * k + 1)) (rd d (4 * k + 2)) (rd d (4 * k + 3)))
    by reflexivity.
  rewrite Hp, <- Hkey in E.
  assert (HdT : (0 <= dT)%Q) by (apply fl_nonneg, Qmult_le_0_compat; [exact Hs0 | discriminate]).
  assert (HdTS : (0 <= dTS)%Q) by (apply fl_nonneg, Qmult_le_0_compat; exact HdT).
  assert (HsR : (0 <= sR)%Q) by (apply fl_nonneg, Qmult_le_0_compat; [exact Hm0 | discriminate]).
  destruct (chroma_G_key (rd d (4 * k)) (rd d (4 * k + 1)) (rd d (4 * k + 2)) (rd d (4 * k + 3))
              dTS sR (spill params) HdTS HsR) as [K1 K2].
  assert (Hz : ~ (0 < dTS)%Q -> ~ (0 < fl_mul sR sR)%Q -> read4 d' (4 * k) = read4 d (4 * k)).
  { intros N1 N2. rewrite E, Hp. exact (K2 N1 N2). }
  split; [| split; [exact Hz |]].
  - intros Hc. pose proof (f_equal pA E) as A. cbn [read4 pA] in A. rewrite A. exact (K1 Hc).
  - intros S0 M0. apply Hz.
    + assert (E1 : dT = 0%Q) by (unfold dT, fl_mul; apply fl_zero; rewrite S0; reflexivity).
      unfold dTS. rewrite E1. intros C; apply (Qlt_irrefl 0), C.
    + assert (E1 : sR = 0%Q) by (unfold sR, fl_mul; apply fl_zero; rewrite M0; reflexivity).
      rewrite E1. intros C; apply (Qlt_irrefl 0), C.
Qed.

Lemma chroma_key_color_transparent_witness :
  let params := mkChroma true "#00ff00" (1 # 2) 0 0 in
  let params' := mkChroma true "#00ff00" (1 # 10 ^ 200) (1 # 10 ^ 200) 0 in
  let d := [0; 255; 0; 255; 9; 9; 9; 255] in
  rd (applyChromaKey 2 1 params d) (4 * 0 + 3) = 0 /\
  read4 (applyChromaKey 2 1 params' d) (4 * 0) = read4 d (4 * 0).
Proof.
  intros params params' d. split.
  - refine (proj1 (chroma_key_color_transparent 2 1 params d 2 0 eq_refl eq_refl
                     ltac:(lia) _ _ eq_refl) _).
    + split; unfold Qle; simpl; lia.
    + split; unfold Qle; simpl; lia.
    + left. vm_compute. reflexivity.
  - refine (proj1 (proj2 (chroma_key_color_transparent 2 1 params' d 2 0 eq_refl eq_refl
                     ltac:(lia) _ _ eq_refl)) _ _).
    + split; unfold Qle; simpl; lia.
    + split; unfold Qle; simpl; lia.
    + intros C. vm_compute in C. discriminate C.
    + intros C. vm_compute in C. discriminate C.
Defined.

(** ** Key-color parsing *)





Lemma is_hex_char_value c : is_hex_char c = true -> hex_digit_value c <> None.
Proof.
  destruct c as [[] [] [] [] [] [] [] []]; vm_compute; congruence.
Qed.

Lemma hex_digit_value_char c v : hex_digit_value c = Some v ->
  is_hex_char c = true /\ hex_char_val c = v.
Proof.
  destruct c as [[] [] [] [] [] [] [] []]; vm_compute; intros H;
    try discriminate H; injection H as <-; split; reflexivity.
Qed.

Lemma hex_exec_hex_head a s : is_hex_char a = true -> hex_exec (String a s) = match_groups (String a s).
Proof.
  destruct a as [[] [] [] [] [] [] [] []]; intros H; try discriminate H; reflexivity.
Qed.

Lemma match_groups_some s x : match_groups s = Some x ->
  exists a b c d e f, s = six a b c d e f /\
    forallb is_hex_char [a; b; c; d; e; f] = true.
Proof.
  destruct s as [|a [|b [|c [|d [|e [|f [|g s]]]]]]]; cbn [match_groups]; try discriminate.
  destruct (forallb is_hex_char _) eqn:Hf; try discriminate.
  intros _. exists a, b, c, d, e, f. split; [reflexivity | exact Hf].
Qed.

Lemma hex_exec_well_formed s x : hex_exec s = Some x -> well_formed_color s.
Proof.
  intros H.
  assert (G : forall t y, match_groups t = Some y ->
            exists a b c d e f, t = six a b c d e f /\
              Forall (fun x => hex_digit_value x <> None) [a; b; c; d; e; f]).
  { intros t y Ht. destruct (match_groups_some t y Ht) as (a & b & c & d & e & f & -> & Hf).
    exists a, b, c, d, e, f. split; [reflexivity |].
    apply Forall_forall. intros z Hz. apply is_hex_char_value.
    rewrite forallb_forall in Hf. apply Hf, Hz. }
  unfold hex_exec in H.
  destruct s as [|h rest]; [discriminate |].
  destruct (Ascii.eqb_spec h "#") as [->|Hne].
  - destruct (match_groups rest) eqn:Hr.
    + destruct (G rest p Hr) as (a & b & c & d & e & f & -> & Hf).
      exists a, b, c, d, e, f. split; [right; reflexivity | exact Hf].
    + destruct (G _ x H) as (a & b & c & d & e & f & Hs & Hf).
      exists a, b, c, d, e, f. split; [left; exact Hs | exact Hf].
  - assert (Hm : match_groups (String h rest) = Some x).
    { destruct h as [[] [] [] [] [] [] [] []]; try exact H.
      exfalso; apply Hne; reflexivity. }
    destruct (G _ x Hm) as (a & b & c & d & e & f & Hs & Hf).
    exists a, b, c, d, e, f. split; [left; exact Hs | exact Hf].
Qed.

(** C9: a key color that is not six hex digits (with or without [#]) behaves
    exactly as [#00ff00]; a well-formed one parses to its RGB value. *)
Theorem chroma_key_color_parse :
  (forall W H params d, ~ well_formed_color (keyColor params) ->
     applyChromaKey W H params d = applyChromaKey W H (with_keyColor params "#00ff00") d) /\
  (forall a b c d e f va vb vc vd ve vf,
     hex_digit_value a = Some va -> hex_digit_value b = Some vb ->
     hex_digit_value c = Some vc -> hex_digit_value d = Some vd ->
     hex_digit_value e = Some ve -> hex_digit_value f = Some vf ->
     hexToRgb (six a b c d e f) = (16 * va + vb, 16 * vc + vd, 16 * ve + vf) /\
     hexToRgb (String "#" (six a b c d e f)) = (16 * va + vb, 16 * vc + vd, 16 * ve + vf)).
Proof.
  split.
  - intros W H params d Hnw.
    assert (Hd : hexToRgb (keyColor params) = (0, 255, 0)).
    { unfold hexToRgb. destruct (hex_exec (keyColor params)) eqn:E; [| reflexivity].
      exfalso; apply Hnw; eapply hex_exec_well_formed; exact E. }
    unfold applyChromaKey. cbn [enabled keyColor similarity smoothness spill with_keyColor].
    rewrite Hd. reflexivity.
  - intros a b c d e f va vb vc vd ve vf Ha Hb Hc Hd He Hf.
    apply hex_digit_value_char in Ha as [Ha Ha']; apply hex_digit_value_char in Hb as [Hb Hb'];
    apply hex_digit_value_char in Hc as [Hc Hc']; apply hex_digit_value_char in Hd as [Hd Hd'];
    apply hex_digit_value_char in He as [He He']; apply hex_digit_value_char in Hf as [Hf Hf'].
    assert (Hm : match_groups (six a b c d e f) =
                 Some (16 * va + vb, 16 * vc + vd, 16 * ve + vf)).
    { unfold six; cbn [match_groups forallb]. rewrite Ha, Hb, Hc, Hd, He, Hf. cbn [andb].
      unfold parseHex2. subst; reflexivity. }
    unfold hexToRgb. split.
    + unfold six at 1. rewrite hex_exec_hex_head by exact Ha. fold (six a b c d e f).
      rewrite Hm; reflexivity.
    + cbn [hex_exec]. rewrite Hm; reflexivity.
Qed.

(** ** The glitch seed *)

(** C8: two parameter sets that differ only in [seed] give the same
    [processImage] output on the same buffer and the same draws. *)
Theorem processImage_seed_unused rng W H p1 p2 d :
  amount p1 = amount p2 -> iterations p1 = iterations p2 -> quality p1 = quality p2 ->
  rgbShift p1 = rgbShift p2 -> blockShift p1 = blockShift p2 ->
  scanlines p1 = scanlines p2 -> pixelSort p1 = pixelSort p2 ->
  processImage rng W H p1 d = processImage rng W H p2 d.
Proof.
  destruct p1, p2; cbn; intros Ha Hi Hq Hr Hb Hs Hp; subst. reflexivity.
Qed.

Lemma processImage_seed_unused_witness :
  let p1 := mkGlitch 50 12345 1 90 5 10 2 20 in
  let p2 := with_seed p1 7 in
  (amount p1 = amount p2 /\ iterations p1 = iterations p2 /\ quality p1 = quality p2 /\
   rgbShift p1 = rgbShift p2 /\ blockShift p1 = blockShift p2 /\
   scanlines p1 = scanlines p2 /\ pixelSort p1 = pixelSort p2) /\
  processImage (fun n => (Z.of_nat n # 97)%Q) 2 2 p1 (repeat 128 16) =
  processImage (fun n => (Z.of_nat n # 97)%Q) 2 2 p2 (repeat 128 16).
Proof.
  intros p1 p2. split.
  - repeat split; reflexivity.
  - apply processImage_seed_unused; reflexivity.
Defined.

(** ** Displacement blend *)













(** C3 (code bug): the code evaluates the shift in binary64.  At scale 3
    and a blend red of 170 the spec's shift is [floor((170/127.5 - 1) * 6) =
    floor 2 = 2], but [170 / 127.5] rounds to [1.3333333333333333], the
    difference to [0.33333333333333326] and the product to
    [1.9999999999999996], so [Math.floor] gives 1.  On a 4 x 1 image with
    [mix = 100] and every draw [1/2], pixel 0 receives the R, G, B of pixel 1
    instead of pixel 2. *)
Lemma displacement_shift_divergence :
  let A := [10; 20; 30; 255; 40; 50; 60; 255; 70; 80; 90; 255; 100; 110; 120; 255] in
  let B := [170; 128; 0; 255; 0; 0; 0; 255; 0; 0; 0; 255; 0; 0; 0; 255] in
  claimed_shift 170 3 = 2 /\ disp_shift 170 (fl_mul 3 2) = 1 /\
  renderBlend (fun _ => (1 # 2)%Q) (Some B) 4 1 (mkBlend Displacement 100 0 3) A =
    Some [40; 50; 60; 255; 10; 20; 30; 255; 10; 20; 30; 255; 10; 20; 30; 255] /\
  read4 [40; 50; 60; 255; 10; 20; 30; 255; 10; 20; 30; 255; 10; 20; 30; 255] 0 <> read4 A (4 * 2).
Proof.
  intros A B. split; [vm_compute; reflexivity |]. split; [vm_compute; reflexivity |].
  split; [vm_compute; reflexivity | discriminate].
Qed.



(** ** Block shift: every row copy stays inside the buffer *)




Section BlockShiftSafety.
Variable rng : nat -> Q.
Hypothesis rng_range : forall n, (0 <= rng n)%Q /\ (rng n < 1)%Q.
Variable L : Z.

Lemma keeps_safe_ret : keeps_safe L (ret tt).
Proof. intros s Hs. exists s; split; auto. Qed.

Lemma keeps_safe_seq m1 m2 : keeps_safe L m1 -> keeps_safe L m2 -> keeps_safe L (m1 ;; m2).
Proof.
  intros H1 H2 s Hs. destruct (H1 s Hs) as (s1 & E1 & Hs1).
  unfold bind. rewrite E1. apply H2, Hs1.
Qed.

Lemma keeps_safe_for n i step body :
  (forall j, keeps_safe L (body j)) -> keeps_safe L (for_range n i step body).
Proof.
  revert i; induction n; intros i Hb; cbn [for_range].
  - apply keeps_safe_ret.
  - apply keeps_safe_seq; auto.
Qed.

Lemma keeps_safe_randomInt a b (k : Z -> M unit) :
  (forall r, (0 <= r)%Q -> (r < 1)%Q -> keeps_safe L (k (Qfloor (r * inject_Z (b - a + 1)) + a))) ->
  keeps_safe L (z <- randomInt rng a b ;; k z).
Proof.
  intros Hk s Hs. destruct (rng_range (pos s)) as [R0 R1].
  destruct (Hk (rng (pos s)) R0 R1 (mkSt (S (pos s)) (buf s) (log s)) Hs) as (s' & E & Hs').
  exists s'. split; auto.
Qed.

Lemma Zlength_subarray d a len : 0 <= a -> 0 <= len -> a + len <= Zlength d ->
  Zlength (subarray d a (a + len)) = len.
Proof.
  intros H1 H2 H3. unfold subarray. rewrite !Zlength_correct in *.
  rewrite length_firstn, length_skipn. lia.
Qed.

Lemma keeps_safe_copy_row W sX sY dX dY bw y : 0 <= bw ->
  keeps_safe L (copy_row W sX sY dX dY bw y).
Proof.
  intros Hbw s [Hl Hlog]. unfold copy_row, bind at 1, get_buf.
  set (srcStart := ((sY + y) * W + sX) * 4).
  set (destStart := ((dY + y) * W + dX) * 4).
  destruct ((srcStart + bw * 4 <? Zlength (buf s)) && (destStart + bw * 4 <? Zlength (buf s))
     && (0 <=? srcStart) && (0 <=? destStart)) eqn:G;
    [| apply keeps_safe_ret; split; assumption].
  apply andb_true_iff in G as [G G4]. apply andb_true_iff in G as [G G3].
  apply andb_true_iff in G as [G1 G2].
  apply Z.ltb_lt in G1, G2. apply Z.leb_le in G3, G4.
  assert (Hsub : Zlength (subarray (buf s) srcStart (srcStart + bw * 4)) = bw * 4)
    by (apply Zlength_subarray; lia).
  unfold bind, record_copy, tset, set_at. cbn [buf log pos].
  rewrite Hsub.
  destruct (Z.ltb_spec destStart 0); [lia |].
  destruct (Z.ltb_spec (Zlength (buf s)) (destStart + bw * 4)); [lia |].
  cbn [orb]. eexists; split; [reflexivity |]. split; cbn [buf log].
  - rewrite !Zlength_correct in *. rewrite !length_app, length_firstn, length_skipn.
    rewrite Nat.min_l by lia. clearbody srcStart destStart. lia.
  - apply Forall_app. split; [exact Hlog |]. constructor; [| constructor].
    cbn. rewrite Zlength_correct in *. lia.
Qed.

(** [randomInt(10, maxBlockSize)] with [maxBlockSize >= 0] is positive. *)
Lemma randomInt_width_pos r m : (0 <= r)%Q -> (r < 1)%Q -> 0 <= m ->
  1 <= Qfloor (r * inject_Z (m - 10 + 1)) + 10.
Proof.
  intros R0 R1 Hm.
  assert (Hlow : (inject_Z (Z.min 0 (m - 9)) <= r * inject_Z (m - 10 + 1))%Q).
  { destruct (Z.le_gt_cases 0 (m - 9)).
    - rewrite Z.min_l by lia. change (inject_Z 0) with 0%Q.
      apply Qmult_le_0_compat; [exact R0 |]. unfold Qle; simpl; lia.
    - rewrite Z.min_r by lia. replace (m - 10 + 1) with (m - 9) by lia.
      set (c := inject_Z (m - 9)).
      assert (Hc : (c <= 0)%Q) by (unfold c, Qle; simpl; lia).
      apply Qle_minus_iff.
      setoid_replace (r * c + - c)%Q with ((1 - r) * (- c))%Q by ring.
      apply Qmult_le_0_compat.
      + apply Qlt_le_weak in R1. apply Qle_minus_iff in R1.
        setoid_replace (1 - r)%Q with (1 + - r)%Q by ring. exact R1.
      + apply Qle_minus_iff in Hc. setoid_replace (- c)%Q with (0 + - c)%Q by ring. exact Hc. }
  apply Qfloor_resp_le in Hlow. rewrite Qfloor_Z in Hlow. lia.
Qed.

Lemma keeps_safe_one_block W H : 0 <= W -> keeps_safe L (one_block rng W H).
Proof.
  intros HW. unfold one_block.
  apply keeps_safe_randomInt. intros r0 R0 R1.
  assert (Hbw := randomInt_width_pos r0 (W / 4) R0 R1 ltac:(apply Z.div_pos; lia)).
  do 5 (apply keeps_safe_randomInt; intros ? ? ?).
  apply keeps_safe_for. intros j. apply keeps_safe_copy_row. lia.
Qed.

Lemma keeps_safe_applyBlockShift W H intensity seed : 0 <= W ->
  keeps_safe L (applyBlockShift rng W H intensity seed).
Proof.
  intros HW. unfold applyBlockShift. destruct (Qeq_bool intensity 0).
  - apply keeps_safe_ret.
  - apply keeps_safe_for. intros _. apply keeps_safe_one_block, HW.
Qed.
End BlockShiftSafety.


(** C5 (code bug): the code clamps the destination origin with
    [min(W - blockW, max(0, srcX + shiftX))], which only lands in [[0, W)]
    when [blockW <= W]; but [randomInt(10, floor(W/4))] has its bounds in the
    wrong order for [W < 40] and returns widths up to 10.  On a 4 x 60 image
    the drawn block is 10 pixels wide, so the destination origin is [-6]: the
    destination rectangle is not clamped into [0,W) x [0,H).  The two row copies land at
    byte offsets 312 and 328, i.e. starting in pixel row 19 and column 2,
    outside the block's destination rows 21..22. *)
Lemma block_shift_unclamped_counterexample :
  (forall n, 0 <= block_draws n < 1)%Q /\
  exists s', applyBlockShift block_draws 4 60 4 0 (mkSt 0 (repeat 0 960) []) = Some (tt, s') /\
             log s' = [(-6, 21, 312, 40); (-6, 21, 328, 40)].
Proof.
  split.
  - intros n. destruct n as [|[|[|[|[|[|n]]]]]]; split; unfold Qle, Qlt; simpl; lia.
  - eexists. split; [vm_compute; reflexivity | vm_compute; reflexivity].
Qed.

(** Block shift: for every draw sequence in [0,1) and every buffer of a
    W x H image (W, H >= 1), the block-shift pass never throws, keeps the
    buffer length, and every row copy it executes (logged as
    [(destX, destY, destStart, len)]) writes only the byte range
    [destStart, destStart + len) inside [0, 4WH). *)
Theorem block_shift_writes_in_bounds (rng : nat -> Q)
  (Hrng : forall n, (0 <= rng n)%Q /\ (rng n < 1)%Q)
  (W H : Z) (intensity seed : Q) (d : list Z) :
  1 <= W -> 1 <= H -> Zlength d = 4 * (W * H) ->
  exists s', applyBlockShift rng W H intensity seed (mkSt 0 d []) = Some (tt, s') /\
    Zlength (buf s') = 4 * (W * H) /\
    Forall (fun e : copy_entry => let '(_, _, destStart, len) := e in
              0 <= destStart /\ destStart + len <= 4 * (W * H)) (log s').
Proof.
  intros HW HH Hd.
  destruct (keeps_safe_applyBlockShift rng Hrng (4 * (W * H)) W H intensity seed
              ltac:(lia) (mkSt 0 d [])) as (s' & E & Hl & Hlog).
  - split; [exact Hd | constructor].
  - exists s'. split; [exact E |]. split; [exact Hl | exact Hlog].
Qed.

Lemma block_shift_writes_in_bounds_witness :
  exists s', applyBlockShift block_draws 4 60 4 0 (mkSt 0 (repeat 0 960) []) = Some (tt, s') /\
    Zlength (buf s') = 4 * (4 * 60) /\
    Forall (fun e : copy_entry => let '(_, _, destStart, len) := e in
              0 <= destStart /\ destStart + len <= 4 * (4 * 60)) (log s').
Proof.
  apply (block_shift_writes_in_bounds block_draws).
  - intros n. destruct n as [|[|[|[|[|[|n]]]]]]; split; unfold Qle, Qlt; simpl; lia.
  - lia.
  - lia.
  - reflexivity.
Defined.

(** ** Pixel sort: every row is permuted in place *)




Lemma rd_app_l l1 l2 i : i < Zlength l1 -> rd (l1 ++ l2) i = rd l1 i.
Proof.
  intros H. unfold rd. destruct (Z.ltb_spec i 0); [reflexivity |].
  rewrite app_nth1; [reflexivity |]. rewrite Zlength_correct in H. lia.
Qed.

Lemma rd_app_r l1 l2 i : Zlength l1 <= i -> rd (l1 ++ l2) i = rd l2 (i - Zlength l1).
Proof.
  intros H. unfold rd. rewrite Zlength_correct in *.
  destruct (Z.ltb_spec i 0); [lia |]. destruct (Z.ltb_spec (i - Z.of_nat (List.length l1)) 0); [lia |].
  rewrite app_nth2 by lia. f_equal. lia.
Qed.

Lemma Zlength_firstn_le (n : nat) (l : list Z) : (n <= List.length l)%nat ->
  Zlength (firstn n l) = Z.of_nat n.
Proof. intros H. rewrite Zlength_correct, length_firstn. lia. Qed.

(** Reading the buffer after [d.set(t, a)]. *)
Lemma rd_splice d t a i : 0 <= a -> a + Zlength t <= Zlength d ->
  rd (firstn (Z.to_nat a) d ++ t ++ skipn (Z.to_nat (a + Zlength t)) d) i =
  if (0 <=? i - a) && (i - a <? Zlength t) then rd t (i - a) else rd d i.
Proof.
  intros Ha Hl. assert (Hf : Zlength (firstn (Z.to_nat a) d) = a).
  { rewrite Zlength_firstn_le; [lia |]. rewrite !Zlength_correct in Hl.
    pose proof (Zlength_correct t). lia. }
  destruct (Z.ltb_spec i a).
  - rewrite rd_app_l by lia.
    destruct (Z.leb_spec 0 (i - a)); [lia |]. cbn [andb].
    unfold rd. destruct (Z.ltb_spec i 0); [reflexivity |].
    rewrite nth_firstn. destruct (Nat.ltb_spec (Z.to_nat i) (Z.to_nat a)); [reflexivity | lia].
  - rewrite rd_app_r by lia. rewrite Hf.
    destruct (Z.leb_spec 0 (i - a)); [| lia]. cbn [andb].
    destruct (Z.ltb_spec (i - a) (Zlength t)).
    + apply rd_app_l; lia.
    + rewrite rd_app_r by lia. unfold rd.
      destruct (Z.ltb_spec (i - a - Zlength t) 0); [lia |].
      destruct (Z.ltb_spec i 0); [lia |].
      rewrite nth_skipn. f_equal. pose proof (Zlength_correct t). lia.
Qed.

Lemma Zlength_flat_px (ps : list px) : Zlength (flat_map px_bytes ps) = 4 * Zlength ps.
Proof.
  rewrite !Zlength_correct.
  induction ps as [|p ps IH]; [reflexivity |].
  cbn [flat_map]. rewrite length_app. cbn [List.length px_bytes]. lia.
Qed.

Lemma read4_flat_px (ps : list px) (m : nat) : (m < List.length ps)%nat ->
  read4 (flat_map px_bytes ps) (4 * Z.of_nat m) = nth m ps (Px 0 0 0 0).
Proof.
  revert m; induction ps as [|p ps IH]; intros m Hm; [cbn in Hm; lia |].
  cbn [flat_map]. destruct m as [|m].
  - destruct p; reflexivity.
  - assert (H4 : Zlength (px_bytes p) = 4) by reflexivity.
    unfold read4. rewrite !rd_app_r by lia. rewrite H4.
    cbn [List.length] in Hm. cbn [nth]. rewrite <- (IH m) by lia. unfold read4.
    f_equal; f_equal; lia.
Qed.

Lemma insert_by_perm {A} (key : A -> Z) x l : Permutation (insert_by key x l) (x :: l).
Proof.
  induction l as [|y l IH]; cbn [insert_by]; [reflexivity |].
  destruct (key x <=? key y); [reflexivity |].
  rewrite IH. apply perm_swap.
Qed.

Lemma sort_by_perm {A} (key : A -> Z) l : Permutation (sort_by key l) l.
Proof.
  induction l as [|x l IH]; cbn [sort_by]; [reflexivity |].
  rewrite insert_by_perm. apply perm_skip, IH.
Qed.

Lemma map_nth_seq_self {A} (l : list A) (dflt : A) :
  map (fun x => nth x l dflt) (seq 0 (List.length l)) = l.
Proof.
  apply nth_ext with (d := dflt) (d' := dflt).
  - rewrite length_map, length_seq. reflexivity.
  - intros n Hn. rewrite length_map, length_seq in Hn.
    pose proof (map_nth (fun x => nth x l dflt) (seq 0 (List.length l)) 0%nat n) as E.
    cbv beta in E.
    rewrite (nth_indep _ dflt (nth 0%nat l dflt)) by (rewrite length_map, length_seq; exact Hn).
    rewrite E, seq_nth by exact Hn. reflexivity.
Qed.

Lemma tempRow_flat (d : list Z) (rowStart : Z) (ks : list Z) :
  flat_map (fun k => let o := rowStart + k * 4 in
                     [rd d o; rd d (o + 1); rd d (o + 2); rd d (o + 3)]) ks =
  flat_map px_bytes (map (fun k => read4 d (rowStart + k * 4)) ks).
Proof.
  induction ks as [|k ks IH]; [reflexivity |].
  cbn [flat_map map]. f_equal. exact IH.
Qed.

(** One pass of the row loop: row [y] becomes its pixels in the order of
    the sorted column indices, a permutation of itself, and every other row
    is untouched. *)
Lemma sort_row_effect_full W H y s : 0 <= W -> 0 <= y < H -> Zlength (buf s) = 4 * (W * H) ->
  exists d', sort_row W y s = Some (tt, mkSt (pos s) d' (log s)) /\
    Zlength d' = 4 * (W * H) /\
    Permutation (row d' W y) (row (buf s) W y) /\
    (forall y', y' <> y -> row d' W y' = row (buf s) W y') /\
    row d' W y =
      map (fun k => read4 (buf s) (y * W * 4 + k * 4))
        (sort_by (fun k => rd (buf s) (y * W * 4 + k * 4) + rd (buf s) (y * W * 4 + k * 4 + 1)
                           + rd (buf s) (y * W * 4 + k * 4 + 2))
                 (map Z.of_nat (seq 0 (Z.to_nat W)))).
Proof.
  intros HW Hy Hd. unfold sort_row, bind at 1, get_buf.
  set (d := buf s) in *. set (R := y * W * 4).
  set (idx := map Z.of_nat (seq 0 (Z.to_nat W))).
  set (bright := fun k => rd d (R + k * 4) + rd d (R + k * 4 + 1) + rd d (R + k * 4 + 2)).
  set (sorted := sort_by bright idx).
  set (ps := map (fun k => read4 d (R + k * 4)) sorted).
  rewrite tempRow_flat. fold sorted. fold ps.
  assert (Hps : List.length ps = Z.to_nat W).
  { unfold ps, sorted. rewrite length_map, (Permutation_length (sort_by_perm _ _)).
    unfold idx. rewrite length_map, length_seq. reflexivity. }
  assert (Ht : Zlength (flat_map px_bytes ps) = 4 * W).
  { rewrite Zlength_flat_px, Zlength_correct, Hps. lia. }
  assert (HyW : 0 <= y * W) by nia.
  assert (HR : R + 4 * W <= 4 * (W * H)) by (unfold R; nia).
  unfold tset, set_at. cbn [buf pos log]. fold d. rewrite Ht.
  destruct (Z.ltb_spec R 0); [unfold R in *; lia |].
  destruct (Z.ltb_spec (Zlength d) (R + 4 * W)); [lia |]. cbn [orb].
  set (d' := firstn (Z.to_nat R) d ++ flat_map px_bytes ps ++ skipn (Z.to_nat (R + 4 * W)) d).
  assert (Hrd : forall i, rd d' i =
     if (0 <=? i - R) && (i - R <? 4 * W) then rd (flat_map px_bytes ps) (i - R) else rd d i).
  { intros i. unfold d'. rewrite <- Ht. apply rd_splice; lia. }
  assert (Erow : row d' W y = ps).
  { unfold row.
    transitivity (map (fun x => nth x ps (Px 0 0 0 0)) (seq 0 (List.length ps)));
      [| apply map_nth_seq_self]. rewrite Hps.
    apply map_ext_in. intros x Hx. apply in_seq in Hx.
    rewrite <- read4_flat_px by lia. unfold read4. rewrite !Hrd.
    assert (E : forall c, 0 <= c <= 3 -> 4 * (y * W + Z.of_nat x) + c - R = 4 * Z.of_nat x + c)
      by (intros; unfold R; lia).
    replace (4 * (y * W + Z.of_nat x) - R) with (4 * (y * W + Z.of_nat x) + 0 - R) by lia.
    rewrite (E 0), (E 1), (E 2), (E 3) by lia.
    destruct (Z.leb_spec 0 (4 * Z.of_nat x + 0)); [| lia].
    destruct (Z.leb_spec 0 (4 * Z.of_nat x + 1)); [| lia].
    destruct (Z.leb_spec 0 (4 * Z.of_nat x + 2)); [| lia].
    destruct (Z.leb_spec 0 (4 * Z.of_nat x + 3)); [| lia].
    destruct (Z.ltb_spec (4 * Z.of_nat x + 0) (4 * W)); [| lia].
    destruct (Z.ltb_spec (4 * Z.of_nat x + 1) (4 * W)); [| lia].
    destruct (Z.ltb_spec (4 * Z.of_nat x + 2) (4 * W)); [| lia].
    destruct (Z.ltb_spec (4 * Z.of_nat x + 3) (4 * W)); [| lia].
    cbn [andb]. f_equal; f_equal; lia. }
  exists d'. split; [reflexivity |]. split; [| split; [| split]].
  - clear Hrd. unfold d'. rewrite !Zlength_correct in *.
    rewrite !length_app, length_firstn, length_skipn.
    rewrite Nat.min_l by lia. lia.
  - rewrite Erow. unfold ps, row.
    transitivity (map (fun k => read4 d (R + k * 4)) idx).
    + apply Permutation_map, sort_by_perm.
    + unfold idx. rewrite map_map. apply Permutation_refl'.
      apply map_ext. intros x. f_equal. unfold R. lia.
  - intros y' Hy'. unfold row. apply map_ext_in. intros x Hx. apply in_seq in Hx.
    unfold read4. rewrite !Hrd.
    assert (F : forall c, 0 <= c <= 3 ->
      (0 <=? 4 * (y' * W + Z.of_nat x) + c - R) && (4 * (y' * W + Z.of_nat x) + c - R <? 4 * W) = false).
    { intros c Hc. unfold R.
      destruct (Z.lt_total y' y) as [Hlt | [Heq | Hgt]]; [| congruence |].
      - assert (4 * (y' * W + Z.of_nat x) + c - y * W * 4 < 0) by nia.
        destruct (Z.leb_spec 0 (4 * (y' * W + Z.of_nat x) + c - y * W * 4)); [lia | reflexivity].
      - assert (4 * W <= 4 * (y' * W + Z.of_nat x) + c - y * W * 4) by nia.
        destruct (Z.ltb_spec (4 * (y' * W + Z.of_nat x) + c - y * W * 4) (4 * W)); [lia |].
        apply andb_false_r. }
    replace (4 * (y' * W + Z.of_nat x) - R) with (4 * (y' * W + Z.of_nat x) + 0 - R) by lia.
    rewrite (F 0), (F 1), (F 2), (F 3) by lia. f_equal; f_equal; lia.
  - exact Erow.
Qed.

Lemma sort_row_effect W H y s : 0 <= W -> 0 <= y < H -> Zlength (buf s) = 4 * (W * H) ->
  exists d', sort_row W y s = Some (tt, mkSt (pos s) d' (log s)) /\
    Zlength d' = 4 * (W * H) /\
    Permutation (row d' W y) (row (buf s) W y) /\
    (forall y', y' <> y -> row d' W y' = row (buf s) W y').
Proof.
  intros HW Hy Hd. destruct (sort_row_effect_full W H y s HW Hy Hd) as (d' & E & L & P & O & _).
  exists d'. repeat split; assumption.
Qed.

(** [randomInt(0, height - 1)] with a draw in [0,1) is a row of the image. *)
Lemma randomInt_row_range r H : (0 <= r)%Q -> (r < 1)%Q -> 1 <= H ->
  0 <= Qfloor (r * inject_Z (H - 1 - 0 + 1)) + 0 < H.
Proof.
  intros R0 R1 HH. replace (H - 1 - 0 + 1) with H by lia.
  assert (P0 : (0 <= r * inject_Z H)%Q).
  { apply Qmult_le_0_compat; [exact R0 | unfold Qle; simpl; lia]. }
  assert (P1 : (r * inject_Z H < inject_Z H)%Q).
  { setoid_replace (inject_Z H) with (1 * inject_Z H)%Q at 2 by ring.
    apply Qmult_lt_r; [unfold Qlt; simpl; lia | exact R1]. }
  split.
  - change 0%Q with (inject_Z 0) in P0.
    apply Qfloor_resp_le in P0. rewrite Qfloor_Z in P0. lia.
  - pose proof (Qfloor_le (r * inject_Z H)) as F.
    assert (F' : (inject_Z (Qfloor (r * inject_Z H)) < inject_Z H)%Q)
      by (eapply Qle_lt_trans; [exact F | exact P1]).
    rewrite <- Zlt_Qlt in F'. lia.
Qed.

Section PixelSortLoop.
Variable rng : nat -> Q.
Hypothesis rng_range : forall n, (0 <= rng n)%Q /\ (rng n < 1)%Q.
Variables (W H : Z) (d0 : list Z).
Hypothesis HW : 0 <= W.
Hypothesis HH : 1 <= H.

Lemma sort_loop_inv n i s : sort_inv W H d0 s ->
  exists s', for_range n i 1 (fun _ => y <- randomInt rng 0 (H - 1) ;; sort_row W y) s
             = Some (tt, s') /\ sort_inv W H d0 s'.
Proof.
  revert i s; induction n as [|n IH]; intros i s [Hl Hp]; cbn [for_range].
  - exists s. split; [reflexivity | split; assumption].
  - destruct (rng_range (pos s)) as [R0 R1].
    pose proof (randomInt_row_range (rng (pos s)) H R0 R1 HH) as Hy.
    set (y := Qfloor (rng (pos s) * inject_Z (H - 1 - 0 + 1)) + 0) in Hy.
    destruct (sort_row_effect W H y (mkSt (S (pos s)) (buf s) (log s)) HW Hy Hl)
      as (d' & E & Hl' & Hperm & Hother).
    assert (Hs1 : sort_inv W H d0 (mkSt (S (pos s)) d' (log s))).
    { split; [exact Hl' |]. intros y'. cbn [buf].
      destruct (Z.eq_dec y' y) as [-> | Hne].
      - rewrite Hperm. apply Hp.
      - rewrite (Hother y' Hne). apply Hp. }
    destruct (IH (i + 1) _ Hs1) as (s' & E' & Hs').
    exists s'. split; [| exact Hs'].
    unfold bind at 1. unfold bind at 1, randomInt, random, ret, bind. cbn [pos buf log].
    fold y. rewrite E. exact E'.
Qed.
End PixelSortLoop.

Lemma Permutation_flat_map_pointwise {A B} (f g : A -> list B) (l : list A) :
  (forall a, In a l -> Permutation (f a) (g a)) -> Permutation (flat_map f l) (flat_map g l).
Proof.
  induction l as [|a l IH]; intros Hfg; cbn [flat_map]; [constructor |].
  apply Permutation_app; [apply Hfg; left; reflexivity | apply IH; intros; apply Hfg; right; assumption].
Qed.

(** C10: for every pixelSort value and every draw sequence in [0,1), the
    pixel-sort pass on a W x H image (W >= 0, H >= 1, buffer of 4WH bytes)
    never throws, keeps the buffer length, turns every row into a
    permutation of that row's original RGBA pixels, and so keeps the
    multiset of all pixels of the image. *)
Theorem pixel_sort_permutes_rows (rng : nat -> Q)
  (Hrng : forall n, (0 <= rng n)%Q /\ (rng n < 1)%Q)
  (W H : Z) (pixelSort : Q) (d : list Z) :
  0 <= W -> 1 <= H -> Zlength d = 4 * (W * H) ->
  exists s', applyPixelSort rng W H pixelSort (mkSt 0 d []) = Some (tt, s') /\
    Zlength (buf s') = 4 * (W * H) /\
    (forall y, 0 <= y < H -> Permutation (row (buf s') W y) (row d W y)) /\
    Permutation (all_pixels (buf s') W H) (all_pixels d W H).
Proof.
  intros HW HH Hd.
  assert (Hinv : exists s', applyPixelSort rng W H pixelSort (mkSt 0 d []) = Some (tt, s') /\
                            sort_inv W H d s').
  { unfold applyPixelSort. destruct (Qeq_bool pixelSort 0).
    - eexists; split; [reflexivity |]. split; [exact Hd | intros; reflexivity].
    - apply sort_loop_inv; [exact Hrng | exact HW | exact HH |].
      split; [exact Hd | intros; reflexivity]. }
  destruct Hinv as (s' & E & Hl & Hp).
  exists s'. split; [exact E |]. split; [exact Hl |]. split.
  - intros y _. apply Hp.
  - unfold all_pixels. apply Permutation_flat_map_pointwise. intros y _. apply Hp.
Qed.

Lemma pixel_sort_permutes_rows_witness :
  exists s', applyPixelSort (fun _ => 1 # 2) 2 2 50 (mkSt 0 [9; 9; 9; 1; 1; 1; 1; 2; 5; 5; 5; 3; 0; 0; 0; 4] []) = Some (tt, s') /\
    Zlength (buf s') = 4 * (2 * 2) /\
    (forall y, 0 <= y < 2 -> Permutation (row (buf s') 2 y) (row [9; 9; 9; 1; 1; 1; 1; 2; 5; 5; 5; 3; 0; 0; 0; 4] 2 y)) /\
    Permutation (all_pixels (buf s') 2 2) (all_pixels [9; 9; 9; 1; 1; 1; 1; 2; 5; 5; 5; 3; 0; 0; 0; 4] 2 2).
Proof.
  apply (pixel_sort_permutes_rows (fun _ => 1 # 2)).
  - intros n. split; unfold Qle, Qlt; simpl; lia.
  - lia.
  - lia.
  - reflexivity.
Defined.

(** C6 (divergence): with 100 rows and [pixelSort = 29] the source computes
    [Math.floor(100 * (29 / 100))] in binary64, where [29 / 100] rounds down
    and the product is [28.999999999999996]: 28 rows are drawn, not
    [floor(100 * 29 / 100) = 29].  The run below consumes exactly 28 draws. *)
Lemma pixel_sort_row_count_divergence :
  rowsToSort 100 29 = 28 /\ (100 * 29) / 100 = 29 /\
  exists s', applyPixelSort (fun _ => 0%Q) 1 100 29 (mkSt 0 (repeat 0 400) []) = Some (tt, s') /\
             pos s' = 28%nat.
Proof.
  split; [vm_compute; reflexivity |]. split; [reflexivity |].
  eexists. split; [vm_compute; reflexivity | reflexivity].
Qed.

(** ** Local storage: proofs *)

Lemma find_app_none {A} (f : A -> bool) l1 l2 :
  find f l1 = None -> find f (l1 ++ l2) = find f l2.
Proof.
  induction l1 as [|x l1 IH]; cbn [find app]; [reflexivity |].
  destruct (f x); [discriminate | exact IH].
Qed.

Lemma find_ext_eq {A} (f g : A -> bool) l :
  (forall x, f x = g x) -> find f l = find g l.
Proof.
  intros E. induction l as [|x l IH]; cbn [find]; [reflexivity |].
  rewrite E. destruct (g x); [reflexivity | exact IH].
Qed.

Section StorageProofs.
Variable toLowerCase : string -> string.
Variable fits : Store -> bool.

Lemma same_name_ext name name' : toLowerCase name' = toLowerCase name ->
  forall u, same_name toLowerCase name' u = same_name toLowerCase name u.
Proof. intros E u. unfold same_name. rewrite E. reflexivity. Qed.

(** Outcome of [registerUser]: nothing is written, or the users list gains
    the new user; success also writes the session. *)
Lemma registerUser_cases name j s r s' :
  registerUser toLowerCase fits name j s = (r, s') ->
  let users := match db_users s with Some (Parsed l) => l | _ => [] end in
  let newUser := mkUser name j (Some (avatar_prefix ++ name)%string) in
  (s' = s \/
   (find (same_name toLowerCase name) users = None /\
    db_users s' = Some (Parsed (users ++ [newUser])) /\ db_posts s' = db_posts s)) /\
  (forall u, r = inl u ->
     u = newUser /\ find (same_name toLowerCase name) users = None /\
     s' = mkStore (Some (Parsed (users ++ [newUser]))) (db_posts s) (Some name) /\
     fits s' = true).
Proof.
  intros E users newUser.
  unfold registerUser, sbind, getStorage_users in E. fold users in E.
  destruct (find (same_name toLowerCase name) users) eqn:F.
  - unfold sthrow in E. inversion E; subst. split; [left; reflexivity | discriminate].
  - unfold setStorage_users, scatch, setItem in E. cbn [db_posts session_user] in E.
    fold newUser in E.
    destruct (fits (mkStore (Some (Parsed (users ++ [newUser]))) (db_posts s) (session_user s))) eqn:Fit1.
    + unfold setItem_session, setItem in E. cbn [db_users db_posts] in E.
      destruct (fits (mkStore (Some (Parsed (users ++ [newUser]))) (db_posts s) (Some name))) eqn:Fit2.
      * unfold sret in E. inversion E; subst. split.
        -- right. split; [reflexivity | split; reflexivity].
        -- intros u Hu. injection Hu as <-. split; [reflexivity |]. split; [reflexivity |].
           split; [reflexivity | exact Fit2].
      * inversion E; subst. split; [| discriminate].
        right. split; [reflexivity | split; reflexivity].
    + unfold sthrow in E. inversion E; subst. split; [left; reflexivity | discriminate].
Qed.

End StorageProofs.

(** Registering then logging in: after [registerUser name] succeeds,
    [loginUser] with any name of the same lower case finds the new user,
    returns it and leaves the store as registration left it. *)
Theorem registerUser_then_loginUser toLowerCase fits name j s u s' name' :
  registerUser toLowerCase fits name j s = (inl u, s') ->
  toLowerCase name' = toLowerCase name ->
  loginUser toLowerCase fits name' s' = (inl u, s').
Proof.
  intros E Hl.
  destruct (registerUser_cases toLowerCase fits name j s _ _ E) as [_ Hs].
  destruct (Hs u eq_refl) as (-> & F & -> & Fit).
  unfold loginUser, sbind, getStorage_users. cbn [db_users].
  rewrite (find_ext_eq _ _ _ (same_name_ext toLowerCase name name' Hl)).
  rewrite find_app_none by exact F. cbn [find].
  unfold same_name at 1. cbn [username]. rewrite String.eqb_refl.
  unfold setItem_session, setItem, sret. cbn [db_users db_posts username].
  rewrite Fit. reflexivity.
Qed.

Lemma NoDup_snoc {A} (l : list A) a : NoDup l -> ~ In a l -> NoDup (l ++ [a]).
Proof.
  intros H1 H2. apply Permutation_NoDup with (l := a :: l).
  - apply Permutation_cons_append.
  - constructor; assumption.
Qed.

(** Usernames stay unique up to [toLowerCase]: every operation of the
    storage service, whatever its outcome, keeps a users list without two
    names of the same lower case. *)
Theorem storage_keeps_unique_usernames toLowerCase fits s :
  users_unique toLowerCase s ->
  (forall name j, users_unique toLowerCase (snd (registerUser toLowerCase fits name j s))) /\
  (forall name, users_unique toLowerCase (snd (loginUser toLowerCase fits name s))) /\
  users_unique toLowerCase (logoutUser s) /\
  (forall user media cap ty nid now,
     users_unique toLowerCase (snd (createPost fits user media cap ty nid now s))).
Proof.
  intros Hu. split; [| split; [| split]].
  - intros name j. destruct (registerUser toLowerCase fits name j s) as [r s'] eqn:E.
    cbn [snd]. destruct (registerUser_cases toLowerCase fits name j s r s' E) as [[-> | (F & Hd & _)] _];
      [exact Hu |].
    unfold users_unique. rewrite Hd. rewrite map_app. cbn [map username].
    apply NoDup_snoc.
    + unfold users_unique in Hu. destruct (db_users s) as [[l|]|]; [exact Hu | constructor | constructor].
    + intros Hin. apply in_map_iff in Hin as (x & Hx & Hin).
      pose proof (find_none _ _ F x Hin) as Nx. unfold same_name in Nx.
      rewrite Hx, String.eqb_refl in Nx. discriminate.
  - intros name. unfold loginUser, sbind, getStorage_users.
    destruct (find _ _) as [u|]; [| exact Hu].
    unfold setItem_session, setItem. destruct (fits _); exact Hu.
  - exact Hu.
  - intros user media cap ty nid now. unfold createPost, sbind, getStorage_posts.
    set (P := mkPost nid (username user) media ty cap now 0).
    set (U := if Nat.ltb 15 _ then _ else _).
    unfold scatch, setStorage_posts, scatch, setItem, sthrow, sret.
    destruct (fits (mkStore (db_users s) (Some (Parsed U)) (session_user s))); [exact Hu |].
    destruct (Nat.ltb 5 (List.length U)); [| exact Hu].
    destruct (fits _); exact Hu.
Qed.

(** The session after a login: [getCurrentUser] returns the user that
    [loginUser] returned (whose name is not empty), and [null] once
    [logoutUser] has run. *)
Theorem loginUser_session toLowerCase fits name s u s' :
  loginUser toLowerCase fits name s = (inl u, s') -> username u <> EmptyString ->
  getCurrentUser toLowerCase s' = Some u /\ getCurrentUser toLowerCase (logoutUser s') = None.
Proof.
  intros E Hne. unfold loginUser, sbind, getStorage_users in E.
  destruct (find (same_name toLowerCase name) _) as [v|] eqn:F; [| discriminate E].
  unfold setItem_session, setItem, sret in E.
  destruct (fits _) in E; [| discriminate E]. injection E as <- <-.
  split; [| reflexivity].
  unfold getCurrentUser. cbn [session_user db_users].
  assert (Hv : same_name toLowerCase name v = true) by (eapply find_some; exact F).
  assert (G : forall x, same_name toLowerCase (username v) x = same_name toLowerCase name x).
  { apply same_name_ext. unfold same_name in Hv. apply String.eqb_eq in Hv. exact Hv. }
  destruct (username v) as [|c rest] eqn:Ev; [congruence |].
  rewrite (find_ext_eq _ _ _ G). exact F.
Qed.

(** [createPost]: the stored feed becomes the new post followed by the
    newest older posts, capped at 15.  If that write exceeds the quota and
    more than 5 posts are left, it retries with the first 5: that write is
    stored if it fits, otherwise nothing is written and
    [STORAGE_FULL_DELETE_OLD_POSTS] is thrown.  With at most 5 posts to keep
    it throws [STORAGE_FULL_DELETE_POSTS] and writes nothing.  On success the
    new post heads both the feed and its author's posts.  Users and session
    are never touched. *)
Theorem createPost_feed fits user media cap ty nid now s r s' :
  createPost fits user media cap ty nid now s = (r, s') ->
  let P := mkPost nid (username user) media ty cap now 0 in
  let U := firstn 15 (P :: getPosts s) in
  db_users s' = db_users s /\ session_user s' = session_user s /\
  (fits (mkStore (db_users s) (Some (Parsed U)) (session_user s)) = true ->
     r = inl P /\ getPosts s' = U) /\
  (fits (mkStore (db_users s) (Some (Parsed U)) (session_user s)) = false ->
     (5 < List.length U)%nat ->
     fits (mkStore (db_users s) (Some (Parsed (firstn 5 U))) (session_user s)) = true ->
     r = inl P /\ getPosts s' = firstn 5 U) /\
  (fits (mkStore (db_users s) (Some (Parsed U)) (session_user s)) = false ->
     (5 < List.length U)%nat ->
     fits (mkStore (db_users s) (Some (Parsed (firstn 5 U))) (session_user s)) = false ->
     r = inr STORAGE_FULL_DELETE_OLD_POSTS /\ s' = s) /\
  (fits (mkStore (db_users s) (Some (Parsed U)) (session_user s)) = false ->
     (List.length U <= 5)%nat -> r = inr STORAGE_FULL_DELETE_POSTS /\ s' = s) /\
  (forall p, r = inl p -> p = P /\ hd_error (getPosts s') = Some P /\
     hd_error (getUserPosts (username user) s') = Some P /\ (List.length (getPosts s') <= 15)%nat).
Proof.
  intros E P U.
  assert (HU : (if Nat.ltb 15 (List.length (P :: getPosts s)) then firstn 15 (P :: getPosts s)
                else P :: getPosts s) = U).
  { unfold U. destruct (Nat.ltb_spec 15 (List.length (P :: getPosts s))); [reflexivity |].
    symmetry. apply firstn_all2. lia. }
  unfold createPost, sbind, getStorage_posts in E. fold P in E.
  change (match db_posts s with Some (Parsed l) => l | _ => [] end) with (getPosts s) in E.
  rewrite HU in E.
  assert (HP : hd_error (getUserPosts (username user) (mkStore (db_users s) (Some (Parsed U)) (session_user s))) = Some P
               /\ hd_error (getUserPosts (username user) (mkStore (db_users s) (Some (Parsed (firstn 5 U))) (session_user s))) = Some P).
  { unfold getUserPosts, getPosts, U. cbn. rewrite String.eqb_refl. split; reflexivity. }
  assert (L15 : (List.length U <= 15)%nat) by (unfold U; rewrite length_firstn; lia).
  unfold scatch, setStorage_posts, scatch, setItem, sthrow, sret in E.
  destruct (fits (mkStore (db_users s) (Some (Parsed U)) (session_user s))) eqn:F1.
  - injection E as <- <-. cbn [db_users session_user].
    split; [reflexivity |]. split; [reflexivity |].
    split; [intros _; split; reflexivity |]. split; [discriminate |].
    split; [discriminate |]. split; [discriminate |].
    intros p Hp. injection Hp as <-. split; [reflexivity |].
    split; [reflexivity |]. split; [exact (proj1 HP) | exact L15].
  - destruct (Nat.ltb_spec 5 (List.length U)).
    + destruct (fits (mkStore (db_users s) (Some (Parsed (firstn 5 U))) (session_user s))) eqn:F2.
      * injection E as <- <-. cbn [db_users session_user].
        split; [reflexivity |]. split; [reflexivity |]. split; [discriminate |].
        split; [intros _ _ _; split; reflexivity |]. split; [intros _ _ F; discriminate F |].
        split; [intros _ H'; lia |].
        intros p Hp. injection Hp as <-. split; [reflexivity |].
        split; [unfold U; reflexivity |]. split; [exact (proj2 HP) |].
        change (List.length (firstn 5 U) <= 15)%nat. rewrite length_firstn. lia.
      * injection E as <- <-.
        split; [reflexivity |]. split; [reflexivity |]. split; [discriminate |].
        split; [intros _ _ F; discriminate F |]. split; [intros _ _ _; split; reflexivity |].
        split; [intros _ H'; lia |].
        discriminate.
    + injection E as <- <-.
      split; [reflexivity |]. split; [reflexivity |]. split; [discriminate |].
      split; [intros _ H'; lia |]. split; [intros _ H'; lia |].
      split; [intros _ _; split; reflexivity |].
      discriminate.
Qed.

(** ** Difference blend *)






(** ** Interlace blend *)

Lemma copy_bytes_loop B (n : nat) : forall a s, 0 <= a ->
  exists d', for_range n a 1 (fun j => modify (fun d => wr d j (rd B j))) s
             = Some (tt, mkSt (pos s) d' (log s)) /\
    Zlength d' = Zlength (buf s) /\
    forall j, 0 <= j < Zlength (buf s) ->
      rd d' j = if (a <=? j) && (j <? a + Z.of_nat n) then rd B j else rd (buf s) j.
Proof.
  induction n as [|n IH]; intros a s Ha; cbn [for_range].
  - exists (buf s). split; [destruct s; reflexivity |]. split; [reflexivity |].
    intros j Hj. change (Z.of_nat 0) with 0.
    destruct (Z.leb_spec a j), (Z.ltb_spec j (a + 0)); try lia; reflexivity.
  - unfold bind at 1, modify at 1. cbn [pos buf log].
    destruct (IH (a + 1) (mkSt (pos s) (wr (buf s) a (rd B a)) (log s)) ltac:(lia))
      as (d' & E & L & R).
    cbn [pos buf log] in E, L, R. exists d'. split; [exact E |].
    rewrite Zlength_wr in L. split; [exact L |].
    intros j Hj. rewrite R by (rewrite Zlength_wr; lia).
    destruct (Z.eq_dec j a) as [-> | Hne].
    + destruct (Z.leb_spec (a + 1) a); [lia |]. cbn [andb].
      rewrite rd_wr_same by lia.
      destruct (Z.leb_spec a a), (Z.ltb_spec a (a + Z.of_nat (S n))); try lia; reflexivity.
    + rewrite rd_wr_other by lia.
      destruct (Z.leb_spec (a + 1) j), (Z.ltb_spec j (a + 1 + Z.of_nat n)),
               (Z.leb_spec a j), (Z.ltb_spec j (a + Z.of_nat (S n))); try lia; reflexivity.
Qed.

Lemma row_of_byte W y j : 1 <= W -> 0 <= y ->
  (y * W * 4 <= j < y * W * 4 + W * 4) <-> (0 <= j /\ j / (4 * W) = y).
Proof.
  intros HW Hy. split.
  - intros Hj. split; [nia |]. symmetry. apply Z.div_unique with (r := j - y * W * 4); lia.
  - intros [Hj E]. pose proof (Z.div_mod j (4 * W) ltac:(lia)) as D.
    pose proof (Z.mod_pos_bound j (4 * W) ltac:(lia)). rewrite E in D. nia.
Qed.

Lemma interlace_loop B W rh mx (m : nat) : 1 <= W -> forall y0 s, 0 <= y0 ->
  exists d', for_range m y0 1 (interlace_row B W rh mx) s = Some (tt, mkSt (pos s) d' (log s)) /\
    Zlength d' = Zlength (buf s) /\
    forall j, 0 <= j < Zlength (buf s) ->
      rd d' j = if (y0 <=? j / (4 * W)) && (j / (4 * W) <? y0 + Z.of_nat m)
                   && (Z.rem (j / (4 * W) / rh) 2 =? 0) && Qltb (1 # 10) mx
                then rd B j else rd (buf s) j.
Proof.
  intros HW. induction m as [|m IH]; intros y0 s Hy0; cbn [for_range].
  - exists (buf s). split; [destruct s; reflexivity |]. split; [reflexivity |].
    intros j Hj. change (Z.of_nat 0) with 0.
    destruct (Z.leb_spec y0 (j / (4 * W))), (Z.ltb_spec (j / (4 * W)) (y0 + 0));
      try lia; reflexivity.
  - assert (Hrow : exists d1, interlace_row B W rh mx y0 s = Some (tt, mkSt (pos s) d1 (log s)) /\
      Zlength d1 = Zlength (buf s) /\
      forall j, 0 <= j < Zlength (buf s) ->
        rd d1 j = if (j / (4 * W) =? y0) && (Z.rem (y0 / rh) 2 =? 0) && Qltb (1 # 10) mx
                  then rd B j else rd (buf s) j).
    { unfold interlace_row.
      destruct ((Z.rem (y0 / rh) 2 =? 0) && Qltb (1 # 10) mx) eqn:C.
      - destruct (copy_bytes_loop B (Z.to_nat (y0 * W * 4 + W * 4 - y0 * W * 4)) (y0 * W * 4) s
                    ltac:(nia)) as (d1 & E & L & R).
        exists d1. split; [exact E |]. split; [exact L |].
        intros j Hj. rewrite R by exact Hj. rewrite <- andb_assoc.
        destruct (Z.eqb_spec (j / (4 * W)) y0) as [Ey | Ny].
        + rewrite C. cbn [andb].
          assert (Hin := proj2 (row_of_byte W y0 j HW Hy0) (conj (proj1 Hj) Ey)).
          destruct (Z.leb_spec (y0 * W * 4) j), (Z.ltb_spec j (y0 * W * 4 + Z.of_nat (Z.to_nat (y0 * W * 4 + W * 4 - y0 * W * 4)))); try lia; reflexivity.
        + cbn [andb].
          destruct (Z.leb_spec (y0 * W * 4) j), (Z.ltb_spec j (y0 * W * 4 + Z.of_nat (Z.to_nat (y0 * W * 4 + W * 4 - y0 * W * 4)))); try reflexivity.
          exfalso. apply Ny. apply (row_of_byte W y0 j HW Hy0). lia.
      - unfold ret. exists (buf s). split; [destruct s; reflexivity |]. split; [reflexivity |].
        intros j _. rewrite <- andb_assoc, C, andb_false_r. reflexivity. }
    destruct Hrow as (d1 & E1 & L1 & R1).
    destruct (IH (y0 + 1) (mkSt (pos s) d1 (log s)) ltac:(lia)) as (d' & E & L & R).
    cbn [pos buf log] in E, L, R.
    exists d'. split; [unfold bind at 1; rewrite E1; exact E |]. split; [lia |].
    intros j Hj. rewrite R by lia. rewrite R1 by exact Hj.
    destruct (Z.eqb_spec (j / (4 * W)) y0) as [-> | Ny].
    + destruct (Z.leb_spec (y0 + 1) y0); [lia |]. cbn [andb].
      destruct (Z.leb_spec y0 y0); [| lia]. destruct (Z.ltb_spec y0 (y0 + Z.of_nat (S m))); [| lia].
      reflexivity.
    + cbn [andb].
      destruct (Z.leb_spec (y0 + 1) (j / (4 * W))), (Z.ltb_spec (j / (4 * W)) (y0 + 1 + Z.of_nat m)),
               (Z.leb_spec y0 (j / (4 * W))), (Z.ltb_spec (j / (4 * W)) (y0 + Z.of_nat (S m)));
        cbn [andb]; try lia; reflexivity.
Qed.

(** Interlace mode: on a W x H target, byte [j] of the result comes from
    the second image exactly when its row [y = j / 4W] has an even band
    number [floor(y / rowHeight)], with [rowHeight = max(1, floor(scale/10))],
    and [mix/100 > 0.1]; every other byte, and the whole target when
    [mix/100 <= 0.1], is kept.  The buffer length is kept. *)
Theorem interlace_blend_bands rng A B W H params :
  mode params = Interlace -> 1 <= W -> 0 <= H -> Zlength A = 4 * (W * H) ->
  Zlength B = Zlength A ->
  exists A', renderBlend rng (Some B) W H params A = Some A' /\
    Zlength A' = Zlength A /\
    forall j, 0 <= j < Zlength A ->
      let rowHeight := Z.max 1 (Qfloor (scale params / 10)) in
      rd A' j = if (Z.rem (j / (4 * W) / rowHeight) 2 =? 0) && Qltb (1 # 10) (mix params / 100)
                then rd B j else rd A j.
Proof.
  intros Hm HW HH Hl HB. unfold renderBlend, renderBlend_M. rewrite Hm.
  unfold bind at 1, get_buf. cbn [buf].
  destruct (interlace_loop B W (Z.max 1 (Qfloor (scale params / 10))) (mix params / 100)
              (Z.to_nat H) HW 0 (mkSt 0 A []) (Z.le_refl 0)) as (d' & E & L & R).
  rewrite E. cbn [buf] in L, R. eexists; split; [reflexivity |]. split; [exact L |].
  intros j Hj. rewrite R by exact Hj.
  assert (Hy : 0 <= j / (4 * W) < H).
  { split; [apply Z.div_pos; lia |]. apply Z.div_lt_upper_bound; lia. }
  destruct (Z.leb_spec 0 (j / (4 * W))), (Z.ltb_spec (j / (4 * W)) (0 + Z.of_nat (Z.to_nat H)));
    try lia. reflexivity.
Qed.


(** ** Generic invariants of the pass monad *)

Section Keeps.
Variable rng : nat -> Q.
Variable P : list Z -> list copy_entry -> Prop.

Lemma keeps_ret : keeps P (ret tt).
Proof. intros s Hs. exists s; split; auto. Qed.

Lemma keeps_seq m1 m2 : keeps P m1 -> keeps P m2 -> keeps P (m1 ;; m2).
Proof.
  intros H1 H2 s Hs. destruct (H1 s Hs) as (s1 & E1 & Hs1).
  unfold bind. rewrite E1. apply H2, Hs1.
Qed.

Lemma keeps_for_idx n : forall i step body,
  (forall k, (k < n)%nat -> keeps P (body (i + Z.of_nat k * step))) ->
  keeps P (for_range n i step body).
Proof.
  induction n as [|n IH]; intros i step body Hb; cbn [for_range].
  - apply keeps_ret.
  - apply keeps_seq.
    + specialize (Hb 0%nat ltac:(lia)). rewrite Z.add_0_r in Hb. exact Hb.
    + apply IH. intros k Hk. specialize (Hb (S k) ltac:(lia)).
      replace (i + step + Z.of_nat k * step) with (i + Z.of_nat (S k) * step) by lia. exact Hb.
Qed.

Lemma keeps_random (k : Q -> M unit) :
  (forall r, keeps P (k r)) -> keeps P (r <- random rng ;; k r).
Proof.
  intros Hk s Hs. destruct (Hk (rng (pos s)) (mkSt (S (pos s)) (buf s) (log s)) Hs) as (s' & E & Hs').
  exists s'. split; auto.
Qed.

Lemma keeps_modify f : (forall b l, P b l -> P (f b) l) -> keeps P (modify f).
Proof. intros Hf s Hs. eexists; split; [reflexivity | apply Hf, Hs]. Qed.
End Keeps.

(** ** Scanlines *)

(** The bytes [scan_pixel] may write at pixel [m] of row [y] are neither an
    alpha byte nor a byte of another row. *)
Lemma scan_write_target W y m c j : 0 <= y -> 0 <= m < W -> 0 <= c <= 2 ->
  (j mod 4 = 3 \/ j / (4 * W) <> y) -> j <> y * W * 4 + 4 * m + c.
Proof.
  intros Hy Hm Hc [Hj | Hj] E; subst j.
  - replace (y * W * 4 + 4 * m + c) with (c + (y * W + m) * 4) in Hj by lia.
    rewrite Z.mod_add, Z.mod_small in Hj by lia. lia.
  - apply Hj. symmetry. apply Z.div_unique with (r := 4 * m + c); lia.
Qed.


Lemma scan_guard_write3 d0 l0 W ls y m (g : Z -> list Z -> Z) b l :
  0 <= y -> 0 <= m < W -> rem_is_zero y ls = true -> scan_guard d0 l0 W ls b l ->
  let i := y * W * 4 + 4 * m in
  let d1 := wr b i (g i b) in
  let d2 := wr d1 (i + 1) (g (i + 1) d1) in
  scan_guard d0 l0 W ls (wr d2 (i + 2) (g (i + 2) d2)) l.
Proof.
  intros Hy Hm Hr (Hl0 & Hlen & Hb) i d1 d2. split; [exact Hl0 |].
  split; [unfold d2, d1; rdwr; exact Hlen |].
  intros j Hj Hp.
  assert (Hp' : j mod 4 = 3 \/ j / (4 * W) <> y).
  { destruct Hp as [Hp | Hp]; [left; exact Hp | right; intros E; congruence]. }
  pose proof (scan_write_target W y m 0 j Hy Hm ltac:(lia) Hp') as N0.
  pose proof (scan_write_target W y m 1 j Hy Hm ltac:(lia) Hp') as N1.
  pose proof (scan_write_target W y m 2 j Hy Hm ltac:(lia) Hp') as N2.
  unfold d2, d1, i. rewrite !rd_wr_other by lia. apply Hb; assumption.
Qed.

Lemma keeps_scan_pixel rng d0 l0 W ls y m factor noiseChance :
  0 <= y -> 0 <= m < W -> rem_is_zero y ls = true ->
  keeps (scan_guard d0 l0 W ls) (scan_pixel rng factor noiseChance (y * W * 4 + 4 * m)).
Proof.
  intros Hy Hm Hr. unfold scan_pixel.
  apply keeps_seq.
  { apply keeps_modify. intros b l Hb. unfold wrq.
    exact (scan_guard_write3 d0 l0 W ls y m
             (fun k d => to_uint8_clamp (inject_Z (rd d k) * factor)) b l Hy Hm Hr Hb). }
  apply keeps_random. intros c. destruct (Qltb c noiseChance); [| apply keeps_ret].
  apply keeps_random. intros u. apply keeps_modify. intros b l Hb. unfold wrq.
  exact (scan_guard_write3 d0 l0 W ls y m
           (fun k d => to_uint8_clamp (inject_Z (rd d k) + (u - (1 # 2)) * 50)) b l Hy Hm Hr Hb).
Qed.

Lemma keeps_applyScanlines rng W H intensity d0 l0 :
  keeps (scan_guard d0 l0 W (2 + Qfloor ((10 - intensity) / 2))) (applyScanlines rng W H intensity).
Proof.
  unfold applyScanlines. destruct (Qeq_bool intensity 0); [apply keeps_ret |].
  apply keeps_for_idx. intros y Hy.
  destruct (rem_is_zero (0 + Z.of_nat y * 1) (2 + Qfloor ((10 - intensity) / 2))) eqn:Hr;
    [| apply keeps_ret].
  apply keeps_for_idx. intros m Hm.
  assert (Hc : forall a, Z.to_nat ((a + W * 4 - a + 3) / 4) = Z.to_nat W).
  { intros a. f_equal. replace (a + W * 4 - a + 3) with (3 + W * 4) by lia.
    rewrite Z.div_add by lia. reflexivity. }
  rewrite Hc in Hm.
  replace ((0 + Z.of_nat y * 1) * W * 4 + Z.of_nat m * 4)
    with ((0 + Z.of_nat y * 1) * W * 4 + 4 * Z.of_nat m) by lia.
  apply keeps_scan_pixel; [lia | lia | exact Hr].
Qed.

(** Scanlines: the pass never throws and keeps the buffer length; it never
    changes an alpha byte, and never changes a byte of a row [y] that is not
    a multiple of [lineSkip = 2 + floor((10 - intensity) / 2)]. *)
Theorem scanlines_keep_alpha_and_skipped_rows rng W H intensity s :
  let lineSkip := 2 + Qfloor ((10 - intensity) / 2) in
  exists s', applyScanlines rng W H intensity s = Some (tt, s') /\
    Zlength (buf s') = Zlength (buf s) /\ log s' = log s /\
    forall j, 0 <= j < Zlength (buf s) ->
      j mod 4 = 3 \/ rem_is_zero (j / (4 * W)) lineSkip = false ->
      rd (buf s') j = rd (buf s) j.
Proof.
  intros lineSkip.
  destruct (keeps_applyScanlines rng W H intensity (buf s) (log s) s) as (s' & E & (Hl & Hlen & Hb)).
  { split; [reflexivity |]. split; [reflexivity |]. intros; reflexivity. }
  exists s'. split; [exact E |]. split; [exact Hlen |]. split; [exact Hl | exact Hb].
Qed.


(** ** processImage: no RangeError *)

Lemma loop4_len body (Hb : forall i d, Zlength (body i d) = Zlength d) n :
  forall i d, Zlength (loop4 n i body d) = Zlength d.
Proof.
  induction n as [|n IH]; intros i d; cbn [loop4]; [reflexivity |]. rewrite IH. apply Hb.
Qed.

Lemma rgb_shift_len d W H off : Zlength (rgb_shift d W H off) = Zlength d.
Proof.
  unfold rgb_shift. destruct (off =? 0); [reflexivity |].
  unfold for_px. apply loop4_len. intros. apply rgb_shift_body_len.
Qed.

Lemma keeps_of_safe L m :
  keeps_safe L m -> keeps (safe_bl L) m.
Proof. intros K s Hs. exact (K s Hs). Qed.

Section ProcessImageSafety.
Variable rng : nat -> Q.
Hypothesis rng_range : forall n, (0 <= rng n)%Q /\ (rng n < 1)%Q.
Variables (W H : Z).
Hypothesis HW : 0 <= W.
Hypothesis HH : 1 <= H.

Lemma keeps_applyPixelSort t : keeps (safe_bl (4 * (W * H))) (applyPixelSort rng W H t).
Proof.
  unfold applyPixelSort. destruct (Qeq_bool t 0); [apply keeps_ret |].
  apply keeps_for_idx. intros _ _ s [Hl Hf].
  destruct (rng_range (pos s)) as [R0 R1].
  pose proof (randomInt_row_range (rng (pos s)) H R0 R1 HH) as Hy.
  destruct (sort_row_effect W H _ (mkSt (S (pos s)) (buf s) (log s)) HW Hy Hl)
    as (d' & E & Hl' & _ & _).
  exists (mkSt (S (pos s)) d' (log s)). split; [| split; assumption].
  unfold bind, randomInt, random, ret. cbn [pos buf log]. exact E.
Qed.

Lemma keeps_processImage_M params : keeps (safe_bl (4 * (W * H))) (processImage_M rng W H params).
Proof.
  unfold processImage_M. apply keeps_seq; [apply keeps_applyPixelSort |].
  apply keeps_seq; [apply keeps_of_safe, (keeps_safe_applyBlockShift rng rng_range), HW |].
  apply keeps_seq.
  - apply keeps_modify. intros b l [Hl Hf]. split; [rewrite rgb_shift_len; exact Hl | exact Hf].
  - intros s Hs.
    destruct (keeps_applyScanlines rng W H (scanlines params) (buf s) (log s) s)
      as (s' & E & (Hl & Hlen & _)).
    { split; [reflexivity |]. split; [reflexivity |]. intros; reflexivity. }
    exists s'. split; [exact E |]. destruct Hs as [Hs1 Hs2].
    split; [lia | rewrite Hl; exact Hs2].
Qed.
End ProcessImageSafety.

(** [processImage] never throws: for every draw sequence in [0,1) and all
    parameters, on a W x H frame (W >= 0, H >= 1) whose buffer holds 4WH
    bytes, the four passes run to the end without a RangeError from a
    typed-array [set], and the frame written back has the same length. *)
Theorem processImage_no_range_error (rng : nat -> Q)
  (Hrng : forall n, (0 <= rng n)%Q /\ (rng n < 1)%Q)
  (W H : Z) (params : GlitchParams) (d : list Z) :
  0 <= W -> 1 <= H -> Zlength d = 4 * (W * H) ->
  exists d', processImage rng W H params d = Some d' /\ Zlength d' = Zlength d.
Proof.
  intros HW HH Hd.
  destruct (keeps_processImage_M rng Hrng W H HW HH params (mkSt 0 d []))
    as (s' & E & Hl & _).
  - split; [exact Hd | constructor].
  - exists (buf s'). unfold processImage. rewrite E. split; [reflexivity | lia].
Qed.


(** ** Block shift on images of at least 40 x 50 pixels *)

(** [randomInt(a, b)] with a draw in [0,1) lies in [[a, b]]. *)
Lemma randomInt_range r a b : (0 <= r)%Q -> (r < 1)%Q -> a <= b ->
  a <= Qfloor (r * inject_Z (b - a + 1)) + a <= b.
Proof.
  intros R0 R1 Hab. pose proof (randomInt_row_range r (b - a + 1) R0 R1 ltac:(lia)) as E.
  replace (b - a + 1 - 1 - 0 + 1) with (b - a + 1) in E by lia. lia.
Qed.

Lemma copy_row_log W sX sY dX dY bw y s : 0 <= bw ->
  exists s', copy_row W sX sY dX dY bw y s = Some (tt, s') /\
    (log s' = log s \/ log s' = log s ++ [(dX, dY, ((dY + y) * W + dX) * 4, bw * 4)]).
Proof.
  intros Hbw. unfold copy_row, bind at 1, get_buf.
  set (srcStart := ((sY + y) * W + sX) * 4).
  set (destStart := ((dY + y) * W + dX) * 4).
  destruct ((srcStart + bw * 4 <? Zlength (buf s)) && (destStart + bw * 4 <? Zlength (buf s))
     && (0 <=? srcStart) && (0 <=? destStart)) eqn:G;
    [| exists s; split; [reflexivity | left; reflexivity]].
  apply andb_true_iff in G as [G G4]. apply andb_true_iff in G as [G G3].
  apply andb_true_iff in G as [G1 G2].
  apply Z.ltb_lt in G1, G2. apply Z.leb_le in G3, G4.
  assert (Hsub : Zlength (subarray (buf s) srcStart (srcStart + bw * 4)) = bw * 4)
    by (apply Zlength_subarray; lia).
  unfold bind, record_copy, tset, set_at. cbn [buf log pos].
  rewrite Hsub.
  destruct (Z.ltb_spec destStart 0); [lia |].
  destruct (Z.ltb_spec (Zlength (buf s)) (destStart + bw * 4)); [lia |].
  cbn [orb]. eexists; split; [reflexivity | right; reflexivity].
Qed.

Section BlockClamp.
Variable rng : nat -> Q.
Hypothesis rng_range : forall n, (0 <= rng n)%Q /\ (rng n < 1)%Q.
Variables (W H : Z) (l0 : list copy_entry).
Hypothesis HW : 40 <= W.
Hypothesis HH : 50 <= H.

Lemma keeps_randomInt_range a b (k : Z -> M unit) : a <= b ->
  (forall z, a <= z <= b -> keeps (grows_ok W H l0) (k z)) ->
  keeps (grows_ok W H l0) (z <- randomInt rng a b ;; k z).
Proof.
  intros Hab Hk s Hs. destruct (rng_range (pos s)) as [R0 R1].
  destruct (Hk _ (randomInt_range _ a b R0 R1 Hab) (mkSt (S (pos s)) (buf s) (log s)) Hs)
    as (s' & E & Hs').
  exists s'. split; auto.
Qed.

Lemma keeps_copy_row_ok sX sY dX dY bw y :
  1 <= bw -> 0 <= dX -> dX + bw <= W -> 0 <= dY -> 0 <= y -> dY + y < H ->
  keeps (grows_ok W H l0) (copy_row W sX sY dX dY bw y).
Proof.
  intros Hbw H1 H2 H3 H4 H5 s (nw & Hl & Hf).
  destruct (copy_row_log W sX sY dX dY bw y s ltac:(lia)) as (s' & E & [L | L]);
    exists s'; split; auto.
  - exists nw. rewrite L. split; assumption.
  - exists (nw ++ [(dX, dY, ((dY + y) * W + dX) * 4, bw * 4)]). rewrite L, Hl, app_assoc.
    split; [reflexivity |]. apply Forall_app. split; [exact Hf |]. constructor; [| constructor].
    unfold block_entry_ok; cbv beta iota. split; [lia |]. split; [lia |]. split; [lia |]. exists y. split; [lia |]. split; [lia | reflexivity].
Qed.

Lemma keeps_one_block_ok : keeps (grows_ok W H l0) (one_block rng W H).
Proof.
  unfold one_block.
  assert (Hm : 10 <= W / 4) by (apply Z.div_le_lower_bound; lia).
  assert (Hm' : 4 * (W / 4) <= W) by (apply Z.mul_div_le; lia).
  apply keeps_randomInt_range; [lia |]. intros bw Hbw.
  apply keeps_randomInt_range; [lia |]. intros bh Hbh.
  apply keeps_randomInt_range; [lia |]. intros sX HsX.
  apply keeps_randomInt_range; [lia |]. intros sY HsY.
  apply keeps_randomInt_range; [lia |]. intros shX _.
  apply keeps_randomInt_range; [lia |]. intros shY _.
  apply keeps_for_idx. intros k Hk.
  apply keeps_copy_row_ok; lia.
Qed.

Lemma keeps_applyBlockShift_ok intensity seed : keeps (grows_ok W H l0) (applyBlockShift rng W H intensity seed).
Proof.
  unfold applyBlockShift. destruct (Qeq_bool intensity 0); [apply keeps_ret |].
  apply keeps_for_idx. intros _ _. apply keeps_one_block_ok.
Qed.
End BlockClamp.

(** Block shift on an image of at least 40 x 50 pixels: for every draw
    sequence in [0,1) the pass never throws, and every row copy it executes
    has its destination inside the image: logged as
    [(destX, destY, destStart, len)], it satisfies [0 <= destX],
    [4 * destX + len <= 4W], [0 <= destY], and [destStart] is the start of
    column [destX] in a row [destY + y < H] with [y >= 0]. *)
Theorem block_shift_dest_clamped (rng : nat -> Q)
  (Hrng : forall n, (0 <= rng n)%Q /\ (rng n < 1)%Q)
  (W H : Z) (intensity seed : Q) (s : St) :
  40 <= W -> 50 <= H ->
  exists s', applyBlockShift rng W H intensity seed s = Some (tt, s') /\
    exists nw, log s' = log s ++ nw /\ Forall (block_entry_ok W H) nw.
Proof.
  intros HW HH.
  destruct (keeps_applyBlockShift_ok rng Hrng W H (log s) HW HH intensity seed s) as (s' & E & Hs').
  - exists []. rewrite app_nil_r. split; [reflexivity | constructor].
  - exists s'. split; [exact E | exact Hs'].
Qed.


(** ** Pixel sort: sorted rows *)

Section LexSort.
Variable key : Z -> Z.

Lemma bright_before_trans a b c :
  bright_before key a b -> bright_before key b c -> bright_before key a c.
Proof. unfold bright_before; lia. Qed.

Lemma insert_by_lex x l : StronglySorted (bright_before key) l -> Forall (fun z => x < z) l ->
  StronglySorted (bright_before key) (insert_by key x l).
Proof.
  induction l as [|y t IH]; intros Hs Hx; cbn [insert_by].
  - constructor; constructor.
  - inversion Hs as [|? ? Ht Hy]; subst. inversion Hx as [|? ? Hxy Hxt]; subst.
    destruct (Z.leb_spec (key x) (key y)).
    + constructor; [exact Hs |]. constructor.
      * unfold bright_before. lia.
      * apply Forall_forall. intros z Hz. apply (bright_before_trans x y z).
        -- unfold bright_before. lia.
        -- rewrite Forall_forall in Hy. apply Hy, Hz.
    + constructor; [apply IH; assumption |].
      apply Forall_forall. intros z Hz.
      apply (Permutation_in _ (insert_by_perm key x t)) in Hz.
      destruct Hz as [<- | Hz].
      * unfold bright_before. lia.
      * rewrite Forall_forall in Hy. apply Hy, Hz.
Qed.

Lemma sort_by_lex l : StronglySorted Z.lt l -> StronglySorted (bright_before key) (sort_by key l).
Proof.
  induction l as [|x t IH]; intros Hs; cbn [sort_by]; [constructor |].
  inversion Hs as [|? ? Ht Hx]; subst. apply insert_by_lex; [apply IH, Ht |].
  apply Forall_forall. intros z Hz. apply (Permutation_in _ (sort_by_perm key t)) in Hz.
  rewrite Forall_forall in Hx. apply Hx, Hz.
Qed.
End LexSort.

Lemma seq_lt a n : StronglySorted Z.lt (map Z.of_nat (seq a n)).
Proof.
  revert a; induction n as [|n IH]; intros a; cbn [seq map]; constructor; [apply IH |].
  apply Forall_forall. intros z Hz. apply in_map_iff in Hz as (x & <- & Hx).
  apply in_seq in Hx. lia.
Qed.

Lemma insert_by_ext {A} (k1 k2 : A -> Z) x l : (forall a, k1 a = k2 a) ->
  insert_by k1 x l = insert_by k2 x l.
Proof.
  intros Hk. induction l as [|y t IH]; cbn [insert_by]; [reflexivity |].
  rewrite !Hk, IH. reflexivity.
Qed.

Lemma sort_by_ext {A} (k1 k2 : A -> Z) l : (forall a, k1 a = k2 a) -> sort_by k1 l = sort_by k2 l.
Proof.
  intros Hk. induction l as [|x t IH]; cbn [sort_by]; [reflexivity |].
  rewrite IH. apply insert_by_ext, Hk.
Qed.

Lemma sort_row_cols W H y s : 0 <= W -> 0 <= y < H -> Zlength (buf s) = 4 * (W * H) ->
  exists d', sort_row W y s = Some (tt, mkSt (pos s) d' (log s)) /\
    Zlength d' = 4 * (W * H) /\
    (forall y', y' <> y -> row d' W y' = row (buf s) W y') /\
    exists cols, Permutation cols (map Z.of_nat (seq 0 (Z.to_nat W))) /\
      row d' W y = map (fun x => read4 (buf s) (4 * (y * W + x))) cols /\
      StronglySorted (bright_before (fun x => brightness (read4 (buf s) (4 * (y * W + x))))) cols.
Proof.
  intros HW Hy Hd. destruct (sort_row_effect_full W H y s HW Hy Hd) as (d' & E & L & _ & O & R).
  set (key := fun x => brightness (read4 (buf s) (4 * (y * W + x)))).
  set (cols := sort_by key (map Z.of_nat (seq 0 (Z.to_nat W)))).
  assert (Ek : forall k, rd (buf s) (y * W * 4 + k * 4) + rd (buf s) (y * W * 4 + k * 4 + 1)
                         + rd (buf s) (y * W * 4 + k * 4 + 2) = key k).
  { intros k. unfold key, brightness, read4. cbn [pR pG pB].
    replace (4 * (y * W + k)) with (y * W * 4 + k * 4) by lia. reflexivity. }
  rewrite (sort_by_ext _ key _ Ek) in R. fold cols in R.
  exists d'. split; [exact E |]. split; [exact L |]. split; [exact O |].
  exists cols. split; [apply sort_by_perm |]. split.
  - rewrite R. apply map_ext. intros x. f_equal. lia.
  - apply sort_by_lex, seq_lt.
Qed.

(** The row step of the pixel sort is a stable sort by brightness: row [y]
    becomes the row's own pixels taken in an order [cols] of the column
    indices [0 .. W-1] where brightness [R + G + B] never decreases and
    equally bright pixels keep their left-to-right order; the other rows
    and the buffer length are kept, and [set] does not throw. *)
Theorem sort_row_stable_by_brightness W H y s :
  0 <= W -> 0 <= y < H -> Zlength (buf s) = 4 * (W * H) ->
  exists d', sort_row W y s = Some (tt, mkSt (pos s) d' (log s)) /\
    Zlength d' = 4 * (W * H) /\
    (forall y', y' <> y -> row d' W y' = row (buf s) W y') /\
    exists cols, Permutation cols (map Z.of_nat (seq 0 (Z.to_nat W))) /\
      row d' W y = map (fun x => read4 (buf s) (4 * (y * W + x))) cols /\
      StronglySorted (bright_before (fun x => brightness (read4 (buf s) (4 * (y * W + x))))) cols.
Proof. exact (sort_row_cols W H y s). Qed.




Section SortedRows.
Variable rng : nat -> Q.
Hypothesis rng_range : forall n, (0 <= rng n)%Q /\ (rng n < 1)%Q.
Variables (W H : Z).
Hypothesis HW : 0 <= W.
Hypothesis HH : 1 <= H.

End SortedRows.



(** ** Chroma key: what the pass leaves alone *)

(** Chroma key, enabled: a pixel whose squared distance to the key color is
    at least [distThresholdSq] and lies beyond the smoothing band (ramp off,
    or squared distance at least [distThresholdSq + smoothRange^2]), with
    these thresholds rounded to binary64 as the code computes them, is left
    exactly as it was; and with [spill <= 0] no pixel's R, G or B changes,
    only alpha can. *)
Theorem chroma_key_far_pixels_and_rgb W H params d n :
  enabled params = true -> Zlength d = 4 * n ->
  let target := hexToRgb (keyColor params) in
  let t := fl_mul (fl_mul (similarity params) 442) (fl_mul (similarity params) 442) in
  let s := fl_mul (smoothness params) 100 in
  let d' := applyChromaKey W H params d in
  Zlength d' = Zlength d /\
  (forall k, 0 <= k < n ->
     (t <= inject_Z (key_dist_sq target (read4 d (4 * k))))%Q ->
     ((s <= 0)%Q \/ (fl_add t (fl_mul s s) <= inject_Z (key_dist_sq target (read4 d (4 * k))))%Q) ->
     read4 d' (4 * k) = read4 d (4 * k)) /\
  ((spill params <= 0)%Q -> forall k, 0 <= k < n ->
     rd d' (4 * k) = rd d (4 * k) /\ rd d' (4 * k + 1) = rd d (4 * k + 1) /\
     rd d' (4 * k + 2) = rd d (4 * k + 2)).
Proof.
  intros He Hl target t s d'.
  destruct (applyChromaKey_px W H params d n He Hl) as [L R]. fold target t s d' in L, R.
  split; [exact L |]. split.
  - intros k Hk Ht Hs. rewrite R by exact Hk. unfold chroma_G.
    destruct target as [[tr tg] tb]. unfold key_dist_sq in Ht, Hs.
    rewrite Qltb_false by exact Ht.
    destruct Hs as [Hs | Hs].
    + rewrite (Qltb_false 0 s Hs). reflexivity.
    + rewrite (Qltb_false _ _ Hs), andb_false_r. reflexivity.
  - intros Hsp k Hk. pose proof (R k Hk) as E. unfold chroma_G in E.
    destruct target as [[tr tg] tb].
    rewrite (Qltb_false 0 (spill params) Hsp) in E.
    assert (G : forall p q, read4 d' (4 * k) = p -> pR p = pR q -> pG p = pG q -> pB p = pB q ->
              q = read4 d (4 * k) ->
              rd d' (4 * k) = rd d (4 * k) /\ rd d' (4 * k + 1) = rd d (4 * k + 1) /\
              rd d' (4 * k + 2) = rd d (4 * k + 2)).
    { intros p q Ep E0 E1 E2 ->. subst p. unfold read4 in E0, E1, E2. cbn [pR pG pB] in E0, E1, E2.
      split; [exact E0 | split; assumption]. }
    destruct (Qltb _ _) in E; [apply (G _ (read4 d (4 * k)) E); reflexivity |].
    destruct (_ && _) in E; apply (G _ (read4 d (4 * k)) E); reflexivity.
Qed.

(** ** hexToRgb *)

Lemma hex_char_val_range c : is_hex_char c = true -> 0 <= hex_char_val c <= 15.
Proof.
  unfold is_hex_char, hex_char_val. set (n := nat_of_ascii c).
  intros Hc. apply orb_true_iff in Hc as [Hc | Hc]; [apply orb_true_iff in Hc as [Hc | Hc] |];
    apply andb_true_iff in Hc as [H1 H2]; apply Nat.leb_le in H1, H2;
    destruct (Z.leb_spec (Z.of_nat n) 57); try destruct (Z.leb_spec (Z.of_nat n) 70); lia.
Qed.

Lemma match_groups_range t r g b : match_groups t = Some (r, g, b) ->
  0 <= r <= 255 /\ 0 <= g <= 255 /\ 0 <= b <= 255.
Proof.
  intros Ht. pose proof (match_groups_some t _ Ht) as (a1 & a2 & a3 & a4 & a5 & a6 & -> & Hf).
  cbn [six match_groups] in Ht. rewrite Hf in Ht. injection Ht as <- <- <-.
  cbn [forallb] in Hf. rewrite !andb_true_iff in Hf.
  destruct Hf as (h1 & h2 & h3 & h4 & h5 & h6 & _).
  apply hex_char_val_range in h1, h2, h3, h4, h5, h6. unfold parseHex2. lia.
Qed.

(** [hexToRgb] always yields a color of bytes: each of the three components
    is in [[0, 255]], both for a parsed color and for the green fallback. *)
Theorem hexToRgb_bytes hex :
  let '(r, g, b) := hexToRgb hex in 0 <= r <= 255 /\ 0 <= g <= 255 /\ 0 <= b <= 255.
Proof.
  unfold hexToRgb.
  destruct (hex_exec hex) as [[[r g] b] |] eqn:E; [| lia].
  unfold hex_exec in E.
  destruct hex as [|h rest]; [discriminate |].
  destruct (Ascii.eqb_spec h "#") as [-> | Hne].
  - destruct (match_groups rest) eqn:Hr.
    + injection E as ->. exact (match_groups_range _ _ _ _ Hr).
    + exact (match_groups_range _ _ _ _ E).
  - apply (match_groups_range (String h rest)).
    destruct h as [[] [] [] [] [] [] [] []]; try exact E.
    exfalso; apply Hne; reflexivity.
Qed.


(** ** Storage: failing operations *)

(** [registerUser] on its failure paths: a name already taken up to
    [toLowerCase] throws ["Username taken"] and writes nothing; if the
    users write exceeds the quota it throws ["STORAGE_FULL_DELETE_OLD_POSTS"]
    and writes nothing; if only the session write fails, it throws while
    the new user stays stored and the session is left as it was. *)
Theorem registerUser_failures toLowerCase fits name j s :
  let users := match db_users s with Some (Parsed l) => l | _ => [] end in
  let newUser := mkUser name j (Some (avatar_prefix ++ name)%string) in
  let s1 := mkStore (Some (Parsed (users ++ [newUser]))) (db_posts s) (session_user s) in
  (find (same_name toLowerCase name) users <> None ->
     registerUser toLowerCase fits name j s = (inr UsernameTaken, s)) /\
  (find (same_name toLowerCase name) users = None -> fits s1 = false ->
     registerUser toLowerCase fits name j s = (inr STORAGE_FULL_DELETE_OLD_POSTS, s)) /\
  (find (same_name toLowerCase name) users = None -> fits s1 = true ->
     fits (mkStore (db_users s1) (db_posts s) (Some name)) = false ->
     registerUser toLowerCase fits name j s = (inr QuotaExceeded, s1)).
Proof.
  intros users newUser s1.
  unfold registerUser, sbind, getStorage_users. fold users.
  split; [| split].
  - intros F. destruct (find _ users); [reflexivity | congruence].
  - intros F Fit. rewrite F. unfold setStorage_users, scatch, setItem. cbn [db_posts session_user].
    fold newUser. fold s1. rewrite Fit. reflexivity.
  - intros F Fit Fit2. rewrite F. unfold setStorage_users, scatch, setItem. cbn [db_posts session_user].
    fold newUser. fold s1. rewrite Fit.
    unfold setItem_session, setItem. cbn [db_users db_posts s1] in Fit2 |- *.
    rewrite Fit2. reflexivity.
Qed.

(** [loginUser] on its failure paths: no stored user of the same lower-case
    name (also when the users item is missing or unparsable) throws
    ["User not found"], and a session write over the quota throws; neither
    changes the store. *)
Theorem loginUser_failures toLowerCase fits name s :
  let users := match db_users s with Some (Parsed l) => l | _ => [] end in
  (find (same_name toLowerCase name) users = None ->
     loginUser toLowerCase fits name s = (inr UserNotFound, s)) /\
  (forall u, find (same_name toLowerCase name) users = Some u ->
     fits (mkStore (db_users s) (db_posts s) (Some (username u))) = false ->
     loginUser toLowerCase fits name s = (inr QuotaExceeded, s)).
Proof.
  intros users. unfold loginUser, sbind, getStorage_users. fold users. split.
  - intros F. rewrite F. reflexivity.
  - intros u F Fit. rewrite F. unfold setItem_session, setItem. rewrite Fit. reflexivity.
Qed.

(** ** randomInt *)

(** [randomInt(min, max)] with a draw in [0,1) and [min <= max] returns an
    integer of [[min, max]], consumes exactly one draw and touches nothing
    else. *)
Theorem randomInt_in_range (rng : nat -> Q) (Hrng : forall n, (0 <= rng n)%Q /\ (rng n < 1)%Q)
  (a b : Z) (s : St) : a <= b ->
  exists z, randomInt rng a b s = Some (z, mkSt (S (pos s)) (buf s) (log s)) /\ a <= z <= b.
Proof.
  intros Hab. destruct (Hrng (pos s)) as [R0 R1].
  eexists. split; [reflexivity |]. exact (randomInt_range _ a b R0 R1 Hab).
Qed.

(** ** processImage with every pass off *)




(** ** Examples of the theorems above *)


Lemma interlace_blend_bands_witness :
  exists A', renderBlend (fun _ => 0%Q) (Some [1; 1; 1; 1; 2; 2; 2; 2]) 1 2
               (mkBlend Interlace 50 0 5) [0; 0; 0; 0; 0; 0; 0; 0] = Some A' /\
    Zlength A' = 8 /\ rd A' 0 = 1 /\ rd A' 4 = 0.
Proof.
  destruct (interlace_blend_bands (fun _ => 0%Q) [0; 0; 0; 0; 0; 0; 0; 0] [1; 1; 1; 1; 2; 2; 2; 2]
              1 2 (mkBlend Interlace 50 0 5) eq_refl ltac:(lia) ltac:(lia) eq_refl eq_refl)
    as (A' & E & L & R).
  exists A'. split; [exact E |]. split; [exact L |].
  split; [rewrite (R 0) by (vm_compute; split; congruence) | rewrite (R 4) by (vm_compute; split; congruence)];
    vm_compute; reflexivity.
Defined.

Lemma processImage_no_range_error_witness :
  exists d', processImage (fun _ => 1 # 2) 2 2 (mkGlitch 50 7 1 1 1 20 5 50) (repeat 100 16) = Some d' /\
    Zlength d' = 16.
Proof.
  destruct (processImage_no_range_error (fun _ => 1 # 2)
              ltac:(intros; split; unfold Qle, Qlt; simpl; lia)
              2 2 (mkGlitch 50 7 1 1 1 20 5 50) (repeat 100 16) ltac:(lia) ltac:(lia) eq_refl)
    as (d' & E & L).
  exists d'. split; [exact E | exact L].
Defined.

Lemma block_shift_dest_clamped_witness :
  (exists s', applyBlockShift (fun _ => 1 # 3) 40 50 50 0 (mkSt 0 (repeat 0 (Z.to_nat 8000)) []) = Some (tt, s') /\
     exists nw, log s' = [] ++ nw /\ Forall (block_entry_ok 40 50) nw) /\
  option_map (fun r => List.length (log (snd r)))
    (applyBlockShift (fun _ => 1 # 3) 40 50 50 0 (mkSt 0 (repeat 0 (Z.to_nat 8000)) [])) = Some 270%nat.
Proof.
  split.
  - apply (block_shift_dest_clamped (fun _ => 1 # 3)
             ltac:(intros; split; unfold Qle, Qlt; simpl; lia) 40 50 50 0
             (mkSt 0 (repeat 0 (Z.to_nat 8000)) []));
      lia.
  - vm_compute. reflexivity.
Defined.

Lemma sort_row_stable_by_brightness_witness :
  exists d', sort_row 3 0 (mkSt 0 [9; 9; 9; 1; 0; 0; 0; 2; 1; 1; 1; 3] []) =
               Some (tt, mkSt 0 d' []) /\
    Zlength d' = 4 * (3 * 1) /\
    (forall y', y' <> 0 -> row d' 3 y' = row [9; 9; 9; 1; 0; 0; 0; 2; 1; 1; 1; 3] 3 y') /\
    exists cols, Permutation cols (map Z.of_nat (seq 0 (Z.to_nat 3))) /\
      row d' 3 0 = map (fun x => read4 [9; 9; 9; 1; 0; 0; 0; 2; 1; 1; 1; 3] (4 * (0 * 3 + x))) cols /\
      StronglySorted (bright_before (fun x =>
        brightness (read4 [9; 9; 9; 1; 0; 0; 0; 2; 1; 1; 1; 3] (4 * (0 * 3 + x))))) cols.
Proof.
  apply (sort_row_stable_by_brightness 3 1 0 (mkSt 0 [9; 9; 9; 1; 0; 0; 0; 2; 1; 1; 1; 3] []));
    [lia | lia | reflexivity].
Defined.


Lemma chroma_key_far_pixels_and_rgb_witness :
  let params := mkChroma true "#00ff00" (1 # 10) (1 # 10) 0 in
  let d := [255; 0; 0; 255; 0; 250; 0; 255] in
  read4 (applyChromaKey 2 1 params d) 0 = read4 d 0 /\
  rd (applyChromaKey 2 1 params d) 5 = rd d 5.
Proof.
  intros params d.
  destruct (chroma_key_far_pixels_and_rgb 2 1 params d 2 eq_refl eq_refl) as (_ & Far & Sp).
  split.
  - change 0 with (4 * 0). apply Far; [lia | vm_compute; discriminate | right; vm_compute; discriminate].
  - apply (Sp ltac:(unfold Qle; simpl; lia) 1 ltac:(lia)).
Defined.

Lemma randomInt_in_range_witness :
  exists z, randomInt (fun _ => 3 # 4) 2 5 (mkSt 0 [] []) = Some (z, mkSt 1 [] []) /\ 2 <= z <= 5.
Proof.
  apply (randomInt_in_range (fun _ => 3 # 4) ltac:(intros; split; unfold Qle, Qlt; simpl; lia)
           2 5 (mkSt 0 [] [])). lia.
Defined.



(** Examples of the storage theorems. *)
Local Open Scope string_scope.

Lemma registerUser_then_loginUser_witness :
  registerUser lower_ascii fits_all "Ada" "t0" (mkStore None None None) = (inl ada, store_ada) /\
  lower_ascii "ADA" = lower_ascii "Ada" /\
  loginUser lower_ascii fits_all "ADA" store_ada = (inl ada, store_ada).
Proof.
  split; [reflexivity |]. split; [reflexivity |].
  apply (registerUser_then_loginUser lower_ascii fits_all "Ada" "t0" (mkStore None None None)
           ada store_ada "ADA"); reflexivity.
Defined.

Lemma storage_keeps_unique_usernames_witness :
  users_unique lower_ascii (mkStore (Some (Parsed [ada; bob])) None None) /\
  users_unique lower_ascii (snd (registerUser lower_ascii fits_all "BOB" "t2"
                                  (mkStore (Some (Parsed [ada; bob])) None None))).
Proof.
  assert (H : users_unique lower_ascii (mkStore (Some (Parsed [ada; bob])) None None)).
  { unfold users_unique. cbn. constructor; [cbn; intros [E | []]; discriminate E |].
    constructor; [intros [] | constructor]. }
  split; [exact H |].
  exact (proj1 (storage_keeps_unique_usernames lower_ascii fits_all _ H) "BOB" "t2").
Defined.

Lemma loginUser_session_witness :
  loginUser lower_ascii fits_all "aDA" store_ada = (inl ada, store_ada) /\
  username ada <> EmptyString /\
  getCurrentUser lower_ascii store_ada = Some ada /\
  getCurrentUser lower_ascii (logoutUser store_ada) = None.
Proof.
  assert (E : loginUser lower_ascii fits_all "aDA" store_ada = (inl ada, store_ada)) by reflexivity.
  assert (N : username ada <> EmptyString) by discriminate.
  split; [exact E |]. split; [exact N |].
  exact (loginUser_session lower_ascii fits_all "aDA" store_ada ada store_ada E N).
Defined.

Lemma createPost_feed_witness :
  (createPost fits_all ada "data:x" "hi" PImage "p1" 5 store_ada =
    (inl (mkPost "p1" "Ada" "data:x" PImage "hi" 5 0),
     mkStore (Some (Parsed [ada])) (Some (Parsed [mkPost "p1" "Ada" "data:x" PImage "hi" 5 0]))
       (Some "Ada")) /\
   hd_error (getUserPosts "Ada" (mkStore (Some (Parsed [ada]))
      (Some (Parsed [mkPost "p1" "Ada" "data:x" PImage "hi" 5 0])) (Some "Ada")))
    = Some (mkPost "p1" "Ada" "data:x" PImage "hi" 5 0)) /\
  (fits_5 (mkStore (db_users store_six)
     (Some (Parsed (firstn 15 (mkPost "p1" "Ada" "data:x" PImage "hi" 5 0 :: getPosts store_six))))
     (session_user store_six)) = false /\
   getPosts (snd (createPost fits_5 ada "data:x" "hi" PImage "p1" 5 store_six)) =
     firstn 5 (firstn 15 (mkPost "p1" "Ada" "data:x" PImage "hi" 5 0 :: getPosts store_six))).
Proof.
  split.
  - assert (E : createPost fits_all ada "data:x" "hi" PImage "p1" 5 store_ada =
      (inl (mkPost "p1" "Ada" "data:x" PImage "hi" 5 0),
       mkStore (Some (Parsed [ada])) (Some (Parsed [mkPost "p1" "Ada" "data:x" PImage "hi" 5 0]))
         (Some "Ada"))) by reflexivity.
    split; [exact E |].
    pose proof (createPost_feed fits_all ada "data:x" "hi" PImage "p1" 5 store_ada _ _ E) as R.
    cbv zeta in R. destruct R as (_ & _ & _ & _ & _ & _ & R).
    exact (proj1 (proj2 (proj2 (R _ eq_refl)))).
  - pose proof (createPost_feed fits_5 ada "data:x" "hi" PImage "p1" 5 store_six
                  (fst (createPost fits_5 ada "data:x" "hi" PImage "p1" 5 store_six))
                  (snd (createPost fits_5 ada "data:x" "hi" PImage "p1" 5 store_six))
                  (surjective_pairing _)) as R.
    cbv zeta in R. destruct R as (_ & _ & _ & R & _).
    split; [reflexivity |].
    exact (proj2 (R eq_refl ltac:(vm_compute; lia) eq_refl)).
Defined.
